(** * Runtime contract enforcement (crosshair/enforce.py)

    A shallow embedding of the enforcement wrapper and of the enforcement
    scope, with the properties the specification states about them.

    Python objects are identified by their [id]; mutable data (lists and
    dicts) lives in a store indexed by location, so that aliasing, in-place
    mutation and [copy.copy] can be told apart.  Code that enforce.py only
    calls (the expression evaluator, the underlying callables, the condition
    provider, [inspect.Signature.bind]) is gathered in the [Host] class.

    The last part covers crosshair/util.py: the lookup of dotted names
    ([walk_qualname], [load_by_qualname]) and [memo]. *)

From stdpp Require Import gmap strings list fin_maps pretty.

(** ** Identities and values *)

(** [id(o)] of a Python object: functions, wrappers, classes, dispatchers. *)
Definition obj_id := nat.
(** Address of a mutable container in the data store. *)
Definition loc := nat.

Inductive value :=
| VNone
| VBool (b : bool)
| VInt (z : Z)
| VStr (s : string)
| VFn (f : obj_id)
| VRef (l : loc).

Global Instance value_eq_dec : EqDecision value.
Proof. solve_decision. Defined.

(** A mutable container: a list or a dict with string keys. *)
Inductive cell :=
| CList (items : list value)
| CDict (entries : gmap string value).

(** ** Exception classes (enforce.py 14-18, util.py 34-38, 136-162) *)

Inductive exc_class :=
| BaseException
| Exception
| TypeError
| LookupError
| KeyError
| ValueError
| RuntimeError
| RecursionError
| AttributeError
| PreconditionFailed
| PostconditionFailed
| NotFound
| ErrorDuringImport
| CrosshairInternal
| UnexploredPath
| UnknownSatisfiability
| PathTimeout
| CrosshairUnsupported
| IgnoreAttempt
| UserClass (name : string) (base : exc_class).

Global Instance exc_class_eq_dec : EqDecision exc_class.
Proof. solve_decision. Defined.

(** Method resolution order: the class itself, then its bases up to
    [BaseException] ([object] is left out: it is no exception class). *)
Fixpoint mro (c : exc_class) : list exc_class :=
  match c with
  | BaseException => [BaseException]
  | Exception => [Exception; BaseException]
  | TypeError => [TypeError; Exception; BaseException]
  | LookupError => [LookupError; Exception; BaseException]
  | KeyError => [KeyError; LookupError; Exception; BaseException]
  | ValueError => [ValueError; Exception; BaseException]
  | RuntimeError => [RuntimeError; Exception; BaseException]
  | RecursionError => [RecursionError; RuntimeError; Exception; BaseException]
  | AttributeError => [AttributeError; Exception; BaseException]
  | PreconditionFailed => [PreconditionFailed; BaseException]
  | PostconditionFailed => [PostconditionFailed; BaseException]
  | NotFound => [NotFound; ValueError; Exception; BaseException]
  | ErrorDuringImport => [ErrorDuringImport; Exception; BaseException]
  | CrosshairInternal => [CrosshairInternal; Exception; BaseException]
  | UnexploredPath => [UnexploredPath; Exception; BaseException]
  | UnknownSatisfiability =>
      [UnknownSatisfiability; UnexploredPath; Exception; BaseException]
  | PathTimeout => [PathTimeout; UnexploredPath; Exception; BaseException]
  | CrosshairUnsupported =>
      [CrosshairUnsupported; UnexploredPath; Exception; BaseException]
  | IgnoreAttempt => [IgnoreAttempt; Exception; BaseException]
  | UserClass name base => UserClass name base :: mro base
  end.

Definition issubclass (c d : exc_class) : bool := bool_decide (d ∈ mro c).

(** A raised exception instance: its class and its [args]. *)
Record exn := { exc_type : exc_class; exc_args : list value }.

(** [except handler:] matches an exception whose class is a subclass of
    the handler's class. *)
Definition catches (handler : exc_class) (e : exn) : bool :=
  issubclass (exc_type e) handler.

(** ** Conditions (the data crosshair.condition_parser hands over) *)

(** Modelled from the spec: the Condition value of crosshair.condition_parser,
    an expression plus its source location.  The compiled [expr] is
    represented by its source text. *)
Record Condition := { expr : string; filename : string; line : nat }.

Inductive ParameterKind :=
| POSITIONAL_ONLY
| POSITIONAL_OR_KEYWORD
| VAR_POSITIONAL
| KEYWORD_ONLY
| VAR_KEYWORD.

Record SigParameter :=
  { pname : string; pkind : ParameterKind; pdefault : option value }.

Definition Signature := list SigParameter.

(** Modelled from the spec: the Conditions bundle of
    crosshair.condition_parser: call signature, ordered preconditions,
    ordered postconditions and the set of mutable-argument names. *)
Record Conditions := {
  sig : Signature;
  pre : list Condition;
  post : list Condition;
  mutable_args : gset string;
}.

(** Modelled from the spec: Conditions.has_any of
    crosshair.condition_parser; a callable has at least one condition or it
    has none. *)
Definition has_any (c : Conditions) : bool :=
  match pre c, post c with
  | [], [] => false
  | _, _ => true
  end.

(** Modelled from the spec: ClassConditions of crosshair.condition_parser.
    [methods] is the mapping [dict(class_conditions.methods)] reads, from a
    method to its Conditions; [class_has_any] is what [has_any()] answers. *)
Record ClassConditions := {
  methods : gmap obj_id Conditions;
  class_has_any : bool;
}.

(** ** The world a call runs in *)

(** [fns_enforcing] is the set shared by all wrappers of one scope
    (enforce.py 68); [store] holds the mutable containers. *)
Record World := {
  fns_enforcing : gset obj_id;
  store : gmap loc cell;
}.

Definition with_fns_enforcing (g : gset obj_id) (w : World) : World :=
  {| fns_enforcing := g; store := store w |}.

Definition with_store (h : gmap loc cell) (w : World) : World :=
  {| fns_enforcing := fns_enforcing w; store := h |}.

Inductive outcome (A : Type) :=
| Return (a : A)
| Raise (e : exn).
Arguments Return {A} a.
Arguments Raise {A} e.

(** Python code over a state [W]: it reads and writes the state and
    returns or raises. *)
Definition Py (W A : Type) : Type := W → outcome A * W.

(** Code running inside a call: its state is the [World]. *)
Definition M (A : Type) : Type := Py World A.

Definition ret {W A} (a : A) : Py W A := λ w, (Return a, w).

Definition raise {W A} (c : exc_class) (args : list value) : Py W A :=
  λ w, (Raise {| exc_type := c; exc_args := args |}, w).

Definition bindM {W A B} (m : Py W A) (k : A → Py W B) : Py W B :=
  λ w, match m w with
       | (Return a, w1) => k a w1
       | (Raise e, w1) => (Raise e, w1)
       end.

Notation "x <- m ;; k" := (bindM m (λ x, k))
  (at level 100, m at next level, right associativity).

(** [try: body  except handler as e: on_exc(e)] *)
Definition try_except {W A} (body : Py W A) (handler : exc_class)
    (on_exc : exn → Py W A) : Py W A :=
  λ w, match body w with
       | (Return a, w1) => (Return a, w1)
       | (Raise e, w1) =>
           if catches handler e then on_exc e w1 else (Raise e, w1)
       end.

Fixpoint foldM {W A B} (f : A → B → Py W A) (acc : A) (l : list B)
    : Py W A :=
  match l with
  | [] => ret acc
  | x :: l' => acc' <- f acc x ;; foldM f acc' l'
  end.

(** ** Containers *)

Definition alloc (c : cell) : M loc :=
  λ w, let l := fresh (dom (store w)) in
       (Return l, with_store (<[l := c]> (store w)) w).

(** [copy.copy]: a container is duplicated one level deep into a new
    object; every other value is atomic and returned as it is.  A reference
    with no cell stands for an opaque atomic object. *)
Definition copy_copy (v : value) : M value :=
  match v with
  | VRef l =>
      λ w, match store w !! l with
           | Some c => (l' <- alloc c ;; ret (VRef l')) w
           | None => (Return v, w)
           end
  | _ => ret v
  end.

(** [d[k] = v] on the dict object at [d]. *)
Definition dict_setitem (d : loc) (k : string) (v : value) : M unit :=
  λ w, match store w !! d with
       | Some (CDict entries) =>
           (Return tt, with_store (<[d := CDict (<[k := v]> entries)]> (store w)) w)
       | _ =>
           raise TypeError [VStr "object does not support item assignment"] w
       end.

(** The dict built from [(key, value)] items, later items winning. *)
Definition dict_of_items (items : list (string * value)) : gmap string value :=
  foldl (λ d kv, <[kv.1 := kv.2]> d) ∅ items.

(** [{**a, **b}] *)
Definition dict_merge (a b : gmap string value) : gmap string value := b ∪ a.

(** Truth value of an object, as [not x] tests it. *)
Definition truthy (v : value) (w : World) : bool :=
  match v with
  | VNone => false
  | VBool b => b
  | VInt z => negb (z =? 0)%Z
  | VStr s => negb (String.eqb s "")
  | VFn _ => true
  | VRef l =>
      match store w !! l with
      | Some (CList items) => negb (bool_decide (items = []))
      | Some (CDict entries) => negb (bool_decide (entries = ∅))
      | None => true
      end
  end.

(** ** What enforce.py calls but does not define *)

Class Host := {
  (** [signature.bind] on the call arguments followed by [apply_defaults()]: the bound
      arguments in parameter order, or the message of the TypeError. *)
  sig_bind : Signature → list value → gmap string value →
             string + list (string * value);
  (** [fn_globals(fn)] *)
  fn_globals : obj_id → gmap string value;
  (** [get_fn_conditions(fn)] and [get_class_conditions(cls)] *)
  get_fn_conditions : obj_id → Conditions;
  get_class_conditions : obj_id → ClassConditions;
  (** [eval(expr, args)] *)
  py_eval : string → gmap string value → M value;
  (** Calling [fn] on positional and keyword arguments, for a callable
      that is no enforcement wrapper. *)
  py_call : obj_id → list value → gmap string value → M value;
}.

(** ** EnforcementWrapper (enforce.py 23-62) *)

Section EnforcementWrapper.
Context {H : Host}.

(** enforce.py 25-31: add on entry, remove in the [finally]. *)
Definition currently_enforcing {A} (fn : obj_id) (body : M A) : M A :=
  λ w,
    let w1 := with_fns_enforcing ({[fn]} ∪ fns_enforcing w) w in
    let '(r, w2) := body w1 in
    if decide (fn ∈ fns_enforcing w2)
    then (r, with_fns_enforcing (fns_enforcing w2 ∖ {[fn]}) w2)
    else raise KeyError [VFn fn] w2.

(** enforce.py 40-43: one turn of the snapshot loop. *)
Definition snapshot_arg (old : loc) (mutable_args_remaining : gset string)
    (item : string * value) : M (gset string) :=
  c <- copy_copy item.2 ;;
  _ <- dict_setitem old item.1 c ;;
  ret (mutable_args_remaining ∖ {[item.1]}).

Definition location (c : Condition) : string :=
  filename c +:+ ":" +:+ pretty (line c).

Definition precondition_failed {A} (c : Condition) : M A :=
  raise PreconditionFailed [VStr ("Precondition failed at " +:+ location c)].

Definition postcondition_failed {A} (c : Condition) : M A :=
  raise PostconditionFailed [VStr ("Postcondition failed at " +:+ location c)].

Definition unrecognized_mutable {A} (remaining : gset string) : M A :=
  raise PostconditionFailed
    [VStr ("Unrecognized mutable argument(s) in postcondition: "
           +:+ String (Ascii.ascii_of_nat 34)
                 (String.concat "," (elements remaining)
                  +:+ String (Ascii.ascii_of_nat 34) ""))].

(** enforce.py 47-51 and 56-59: evaluate the conditions in order, raising
    at the first one that is not true. *)
Fixpoint check_conditions (failed : Condition → M unit)
    (args : gmap string value) (conds : list Condition) : M unit :=
  match conds with
  | [] => ret tt
  | c :: rest =>
      v <- py_eval (expr c) args ;;
      λ w, if truthy v w then check_conditions failed args rest w
           else failed c w
  end.

(** enforce.py 36-45: bind, snapshot, validate the mutable arguments. *)
Definition bind_and_snapshot (conditions : Conditions) (a : list value)
    (kw : gmap string value) : M (list (string * value) * loc) :=
  bound_args <- match sig_bind (sig conditions) a kw with
                | inr items => ret items
                | inl msg => raise TypeError [VStr msg]
                end ;;
  old <- alloc (CDict ∅) ;;
  mutable_args_remaining <-
    foldM (snapshot_arg old) (mutable_args conditions) bound_args ;;
  if decide (mutable_args_remaining = ∅) then ret (bound_args, old)
  else unrecognized_mutable mutable_args_remaining.

(** enforce.py 46-51 *)
Definition check_pre (fn : obj_id) (conditions : Conditions)
    (bound_args : list (string * value)) : M unit :=
  currently_enforcing fn
    (check_conditions precondition_failed
       (dict_merge (fn_globals fn) (dict_of_items bound_args))
       (pre conditions)).

(** enforce.py 54-55 *)
Definition post_args (fn : obj_id) (bound_args : list (string * value))
    (ret_ : value) (old : loc) : gmap string value :=
  let lcls := <["__old__" := VRef old]>
                (<["__return__" := ret_]> (dict_of_items bound_args)) in
  dict_merge (fn_globals fn) lcls.

(** enforce.py 53-59 *)
Definition check_post (fn : obj_id) (conditions : Conditions)
    (bound_args : list (string * value)) (ret_ : value) (old : loc)
    : M unit :=
  currently_enforcing fn
    (check_conditions postcondition_failed
       (post_args fn bound_args ret_ old) (post conditions)).

(** enforce.py 32-61: the closure returned by [EnforcementWrapper]. *)
Definition wrapper (fn : obj_id) (conditions : Conditions)
    (a : list value) (kw : gmap string value) : M value :=
  λ w,
    if decide (fn ∈ fns_enforcing w) then py_call fn a kw w
    else
      (bs <- bind_and_snapshot conditions a kw ;;
       _ <- check_pre fn conditions bs.1 ;;
       ret_ <- py_call fn a kw ;;
       _ <- check_post fn conditions bs.1 ret_ bs.2 ;;
       ret ret_) w.

End EnforcementWrapper.

(** ** The objects an enforcement scope handles *)

(** Name of a caller-supplied environment (a namespace dict). *)
Definition env_id := nat.

(** What the scope can tell about an object.  A wrapper is the closure
    [EnforcementWrapper] returns: it remembers the callable it guards and
    its conditions ([functools.update_wrapper] copies metadata only).  A
    dispatcher is a [functools.singledispatch] function: its [registry] maps
    [object] to [dflt] and every other registered type to an implementation.
    A class is known by the attributes [getattr] finds on it. *)
Inductive obj :=
| OFunction
| OBuiltin
| OWrapper (fn : obj_id) (conditions : Conditions)
| ODispatcher (dflt : obj_id) (registry : gmap obj_id obj_id)
| OClass (attrs : gmap string obj_id)
| OOther.

(** [isinstance(v, (types.FunctionType, types.BuiltinFunctionType))] *)
Definition is_function_type (o : option obj) : bool :=
  match o with
  | Some OFunction | Some OBuiltin | Some (OWrapper _ _)
  | Some (ODispatcher _ _) => true
  | _ => false
  end.

(** [inspect.isfunction] *)
Definition isfunction (o : option obj) : bool :=
  match o with
  | Some OFunction | Some (OWrapper _ _) | Some (ODispatcher _ _) => true
  | _ => false
  end.

(** enforce.py 20-21: the value has a [registry] that is a Mapping. *)
Definition is_singledispatcher (o : option obj) : bool :=
  match o with
  | Some (ODispatcher _ _) => true
  | _ => false
  end.

(** [isinstance(v, type)] *)
Definition is_type (o : option obj) : bool :=
  match o with
  | Some (OClass _) => true
  | _ => false
  end.

(** The Python heap as far as the scope reads it, the caller's
    environments, and the fields of one [EnforcedConditions] instance
    (enforce.py 65-70).  The instance's [fns_enforcing] set is the one of
    the [World] its wrappers run in. *)
Record State := {
  objs : gmap obj_id obj;
  env_store : gmap env_id (gmap string obj_id);
  envs : list env_id;
  interceptor : obj_id → obj_id;
  wrapper_map : gmap obj_id obj_id;
  original_map : gmap obj_id obj_id;
}.

Definition with_objs (o : gmap obj_id obj) (s : State) : State :=
  {| objs := o; env_store := env_store s; envs := envs s;
     interceptor := interceptor s; wrapper_map := wrapper_map s;
     original_map := original_map s |}.

Definition with_env_store (e : gmap env_id (gmap string obj_id)) (s : State)
    : State :=
  {| objs := objs s; env_store := e; envs := envs s;
     interceptor := interceptor s; wrapper_map := wrapper_map s;
     original_map := original_map s |}.

Definition with_wrapper_map (m : gmap obj_id obj_id) (s : State) : State :=
  {| objs := objs s; env_store := env_store s; envs := envs s;
     interceptor := interceptor s; wrapper_map := m;
     original_map := original_map s |}.

Definition with_original_map (m : gmap obj_id obj_id) (s : State) : State :=
  {| objs := objs s; env_store := env_store s; envs := envs s;
     interceptor := interceptor s; wrapper_map := wrapper_map s;
     original_map := m |}.

(** The contents of an environment. *)
Definition env_of (s : State) (e : env_id) : gmap string obj_id :=
  default ∅ (env_store s !! e).

(** Creation of a new object. *)
Definition new_object (o : obj) : Py State obj_id :=
  λ s, let i := fresh (dom (objs s)) in
       (Return i, with_objs (<[i := o]> (objs s)) s).

(** [setattr(cls, name, v)] *)
Definition setattr (cls : obj_id) (name : string) (v : obj_id)
    : Py State unit :=
  λ s, match objs s !! cls with
       | Some (OClass attrs) =>
           (Return tt, with_objs (<[cls := OClass (<[name := v]> attrs)]> (objs s)) s)
       | _ => raise AttributeError [VStr name] s
       end.

(** [list(inspect.getmembers(cls, inspect.isfunction))] *)
Definition getmembers_isfunction (cls : obj_id) : Py State (list (string * obj_id)) :=
  λ s, match objs s !! cls with
       | Some (OClass attrs) =>
           (Return (filter (λ nm, isfunction (objs s !! nm.2) = true)
                      (map_to_list attrs)), s)
       | _ => (Return [], s)
       end.

(** [wrapped.register(typ)(f)] on the dispatcher object at [wrapped]. *)
Definition register (wrapped : obj_id) (typ : obj_id) (f : obj_id)
    : Py State unit :=
  λ s, match objs s !! wrapped with
       | Some (ODispatcher dflt registry) =>
           (Return tt,
            with_objs (<[wrapped := ODispatcher dflt (<[typ := f]> registry)]> (objs s)) s)
       | _ => raise AttributeError [VStr "register"] s
       end.

(** ** EnforcedConditions (enforce.py 64-149) *)

Section EnforcedConditions.
Context {H : Host}.

(** enforce.py 65-70 *)
Definition __init__ (heap : gmap obj_id obj)
    (namespaces : gmap env_id (gmap string obj_id))
    (envs : list env_id) (interceptor : obj_id → obj_id) : State :=
  {| objs := heap; env_store := namespaces; envs := envs;
     interceptor := interceptor; wrapper_map := ∅; original_map := ∅ |}.

(** enforce.py 89-90: the registry is keyed by [id(value)]. *)
Definition is_enforcement_wrapper (s : State) (value : obj_id) : bool :=
  bool_decide (is_Some (original_map s !! value)).

(** enforce.py 134-149 *)
Definition _wrap_fn (fn : obj_id) (conditions : option Conditions)
    : Py State obj_id :=
  λ s,
    match wrapper_map s !! fn with
    | Some wrapper => (Return wrapper, s)
    | None =>
        if is_enforcement_wrapper s fn then (Return fn, s)
        else
          let conditions := default (get_fn_conditions fn) conditions in
          (wrapper <- (if has_any conditions
                       then new_object (OWrapper (interceptor s fn) conditions)
                       else ret fn) ;;
           λ s1, (Return wrapper,
                  with_original_map (<[wrapper := fn]> (original_map s1))
                    (with_wrapper_map (<[fn := wrapper]> (wrapper_map s1)) s1))) s
    end.

(** enforce.py 72-80 *)
Definition _wrap_class (cls : obj_id) (class_conditions : ClassConditions)
    : Py State unit :=
  let method_conditions := methods class_conditions in
  members <- getmembers_isfunction cls ;;
  foldM (λ _ member,
           match method_conditions !! member.2 with
           | None => ret tt
           | Some conditions =>
               wrapper <- _wrap_fn member.2 (Some conditions) ;;
               setattr cls member.1 wrapper
           end) tt members.

(** enforce.py 82-87 *)
Definition _transform_singledispatch (fn : obj_id)
    (transformer : obj_id → Py State obj_id) : Py State obj_id :=
  λ s,
    match objs s !! fn with
    | Some (ODispatcher dflt registry) =>
        (let overloads := map_to_list registry in
         first <- transformer dflt ;;
         wrapped <- new_object (ODispatcher first ∅) ;;
         _ <- foldM (λ _ overload,
                       f <- transformer overload.2 ;;
                       register wrapped overload.1 f) tt overloads ;;
         ret wrapped) s
    | _ => raise AttributeError [VStr "registry"] s
    end.

(** enforce.py 95-107: one binding of the activation walk. *)
Definition enter_binding (next_env : gmap string obj_id)
    (kv : string * obj_id) : Py State (gmap string obj_id) :=
  let '(k, v) := kv in
  λ s,
    if is_function_type (objs s !! v) then
      if is_singledispatcher (objs s !! v) then
        (wrapper <- _transform_singledispatch v (λ f, _wrap_fn f None) ;;
         ret (<[k := wrapper]> next_env)) s
      else
        (wrapper <- _wrap_fn v None ;;
         if decide (wrapper = v) then ret next_env
         else ret (<[k := wrapper]> next_env)) s
    else if is_type (objs s !! v) then
      let conditions := get_class_conditions v in
      if class_has_any conditions
      then (_ <- _wrap_class v conditions ;; ret next_env) s
      else (Return next_env, s)
    else (Return next_env, s).

(** enforce.py 108-109 and 116-117: [env.update(next_env)] for each pair. *)
Definition update_envs (pairs : list (env_id * gmap string obj_id))
    : Py State unit :=
  foldM (λ _ p s,
           (Return tt,
            with_env_store (<[p.1 := p.2 ∪ env_of s p.1]> (env_store s)) s))
        tt pairs.

(** The walk of enforce.py 94-107 and 113-115 over the zipped pairs. *)
Definition walk_envs
    (binding : gmap string obj_id → string * obj_id →
               Py State (gmap string obj_id))
    (pairs : list (env_id * gmap string obj_id))
    : Py State (list (env_id * gmap string obj_id)) :=
  foldM (λ done p,
           s_items <- (λ s, (Return (map_to_list (env_of s p.1)), s)) ;;
           next_env <- foldM binding p.2 s_items ;;
           ret (done ++ [(p.1, next_env)])) [] pairs.

(** enforce.py 92-109 *)
Definition __enter__ : Py State unit :=
  λ s,
    let next_envs := map (λ e, (e, env_of s e)) (envs s) in
    (pairs <- walk_envs enter_binding next_envs ;;
     update_envs pairs) s.

(** enforce.py 129-132 *)
Definition _unwrap_class (cls : obj_id) : Py State unit :=
  members <- getmembers_isfunction cls ;;
  foldM (λ _ member s,
           match original_map s !! member.2 with
           | Some original => setattr cls member.1 original s
           | None => (Return tt, s)
           end) tt members.

(** enforce.py 120-127.  [fuel] bounds the depth of the recursion through
    [_transform_singledispatch], as the interpreter's stack does. *)
Fixpoint _unwrap (fuel : nat) (value : obj_id) : Py State obj_id :=
  match fuel with
  | 0 => raise RecursionError []
  | S fuel' =>
      λ s,
        match original_map s !! value with
        | Some original => (Return original, s)
        | None =>
            if is_singledispatcher (objs s !! value)
            then _transform_singledispatch value (_unwrap fuel') s
            else if is_type (objs s !! value)
                 then (_ <- _unwrap_class value ;; ret value) s
                 else (Return value, s)
        end
  end.

(** enforce.py 114-115: one binding of the deactivation walk. *)
Definition exit_binding (fuel : nat) (next_env : gmap string obj_id)
    (kv : string * obj_id) : Py State (gmap string obj_id) :=
  original <- _unwrap fuel kv.2 ;;
  ret (<[kv.1 := original]> next_env).

(** enforce.py 111-118; the three exception arguments are not read. *)
Definition __exit__ (fuel : nat) : Py State bool :=
  λ s,
    let next_envs := map (λ e, (e, env_of s e)) (envs s) in
    (pairs <- walk_envs (exit_binding fuel) next_envs ;;
     _ <- update_envs pairs ;;
     ret false) s.

End EnforcedConditions.

(** ** Calling an object *)

Section Calls.
Context {H : Host}.

(** Calling the object found at [self]: an enforcement wrapper runs the
    closure of enforce.py 32-61, anything else is the host's business. *)
Definition call_object (o : option obj) (self : obj_id) (a : list value)
    (kw : gmap string value) : M value :=
  match o with
  | Some (OWrapper fn conditions) => wrapper fn conditions a kw
  | _ => py_call self a kw
  end.

(** The conditions [conds] are evaluated in the order of the list, each
    one to a true value, taking the world from [w] to [w']. *)
Inductive hold_in_order (args : gmap string value)
    : list Condition → World → World → Prop :=
| hold_nil w : hold_in_order args [] w w
| hold_cons c rest w v w1 w2 :
    py_eval (expr c) args w = (Return v, w1) →
    truthy v w1 = true →
    hold_in_order args rest w1 w2 →
    hold_in_order args (c :: rest) w w2.

(** [c] is a copy of the argument value [v]: the value itself when it is
    atomic, else a new object holding what [v] held in [w0]. *)
Definition is_copy (w0 w : World) (v c : value) : Prop :=
  match v with
  | VRef l =>
      match store w0 !! l with
      | Some content =>
          ∃ l', c = VRef l' ∧ (l' ∉ dom (store w0)) ∧
                store w !! l' = Some content
      | None => True
      end
  | _ => c = v
  end.

End Calls.

(** The same host with another implementation behind every callable. *)
Definition with_py_call (H : Host)
    (f : obj_id → list value → gmap string value → M value) : Host :=
  {| sig_bind := @sig_bind H; fn_globals := @fn_globals H;
     get_fn_conditions := @get_fn_conditions H;
     get_class_conditions := @get_class_conditions H;
     py_eval := @py_eval H; py_call := f |}.

(** The same host with another expression evaluator. *)
Definition with_py_eval (H : Host)
    (f : string → gmap string value → M value) : Host :=
  {| sig_bind := @sig_bind H; fn_globals := @fn_globals H;
     get_fn_conditions := @get_fn_conditions H;
     get_class_conditions := @get_class_conditions H;
     py_eval := f; py_call := @py_call H |}.

(** * Properties *)

(** ** Exception classes *)

Lemma mro_self c : c ∈ mro c.
Proof. destruct c; simpl; set_solver. Qed.

Lemma issubclass_refl c : issubclass c c = true.
Proof. apply bool_decide_eq_true_2, mro_self. Qed.

Lemma mro_BaseException c : BaseException ∈ mro c.
Proof. induction c; simpl; set_solver. Qed.

Lemma catches_PreconditionFailed h args :
  catches h {| exc_type := PreconditionFailed; exc_args := args |} = true ↔
  h = PreconditionFailed ∨ h = BaseException.
Proof.
  unfold catches, issubclass; simpl. rewrite bool_decide_eq_true. set_solver.
Qed.

Lemma catches_PostconditionFailed h args :
  catches h {| exc_type := PostconditionFailed; exc_args := args |} = true ↔
  h = PostconditionFailed ∨ h = BaseException.
Proof.
  unfold catches, issubclass; simpl. rewrite bool_decide_eq_true. set_solver.
Qed.

Lemma Exception_subclass_not_contract h :
  issubclass h Exception = true →
  h ≠ PreconditionFailed ∧ h ≠ PostconditionFailed ∧ h ≠ BaseException.
Proof.
  unfold issubclass. rewrite bool_decide_eq_true.
  intros Hin; repeat split; intros ->; simpl in Hin; set_solver.
Qed.

(** C10. [PreconditionFailed] and [PostconditionFailed] derive from
    [BaseException] and not from [Exception]: a handler catches such a
    failure exactly when it names [BaseException] or the failure's own class,
    and a [try] whose handler names [Exception] or one of its subclasses lets
    the failure through unchanged. *)
Theorem contract_failures_escape_Exception_handlers :
  issubclass PreconditionFailed BaseException = true ∧
  issubclass PostconditionFailed BaseException = true ∧
  issubclass PreconditionFailed Exception = false ∧
  issubclass PostconditionFailed Exception = false ∧
  ∀ (h : exc_class) (e : exn),
    exc_type e = PreconditionFailed ∨ exc_type e = PostconditionFailed →
    (catches h e = true ↔ h = BaseException ∨ h = exc_type e) ∧
    (issubclass h Exception = true →
     catches h e = false ∧
     ∀ (W A : Type) (body : Py W A) (on_exc : exn → Py W A) (w w' : W),
       body w = (Raise e, w') →
       try_except body h on_exc w = (Raise e, w')).
Proof.
  repeat split; try reflexivity.
  - destruct e as [c args]; simpl in *.
    destruct H as [-> | ->];
      [rewrite catches_PreconditionFailed | rewrite catches_PostconditionFailed];
      tauto.
  - destruct e as [c args]; simpl in *.
    destruct H as [-> | ->];
      [rewrite catches_PreconditionFailed | rewrite catches_PostconditionFailed];
      tauto.
  - destruct (Exception_subclass_not_contract h H0) as (? & ? & ?).
    destruct e as [c args]; simpl in *.
    apply not_true_is_false.
    destruct H as [-> | ->];
      [rewrite catches_PreconditionFailed | rewrite catches_PostconditionFailed];
      tauto.
  - intros W A body on_exc w w' Hb.
    destruct (Exception_subclass_not_contract h H0) as (? & ? & ?).
    unfold try_except. rewrite Hb.
    destruct e as [c args]; simpl in *.
    destruct (catches h {| exc_type := c; exc_args := args |}) eqn:Hc; [|done].
    exfalso.
    destruct H as [-> | ->];
      [apply catches_PreconditionFailed in Hc
      | apply catches_PostconditionFailed in Hc]; tauto.
Qed.

(** ** The wrapper's building blocks *)

Ltac py_unfold :=
  unfold bindM, ret, raise in *; simpl in *.

Definition keys_of (items : list (string * value)) : gset string :=
  list_to_set items.*1.

Lemma dom_foldl_insert (items : list (string * value)) (d : gmap string value) :
  dom (foldl (λ d kv, <[kv.1 := kv.2]> d) d items) = dom d ∪ keys_of items.
Proof.
  revert d; induction items as [|[k v] items IH]; intros d; simpl.
  - unfold keys_of; simpl. set_solver.
  - rewrite IH, dom_insert_L. unfold keys_of; simpl. set_solver.
Qed.

Lemma dom_dict_of_items items : dom (dict_of_items items) = keys_of items.
Proof. unfold dict_of_items. rewrite dom_foldl_insert. set_solver. Qed.

Section WrapperFacts.
Context {H : Host}.

Lemma currently_enforcing_run {A} fn (body : M A) w r w2 :
  body (with_fns_enforcing ({[fn]} ∪ fns_enforcing w) w) = (r, w2) →
  fn ∈ fns_enforcing w2 →
  currently_enforcing fn body w =
    (r, with_fns_enforcing (fns_enforcing w2 ∖ {[fn]}) w2).
Proof.
  intros Hb Hin. unfold currently_enforcing. rewrite Hb.
  by destruct (decide (fn ∈ fns_enforcing w2)).
Qed.

Lemma check_conditions_hold failed args conds w w' :
  hold_in_order args conds w w' →
  check_conditions failed args conds w = (Return tt, w').
Proof.
  induction 1 as [|c rest w v w1 w2 Hev Ht _ IH]; simpl; [done|].
  unfold bindM. by rewrite Hev, Ht.
Qed.

Lemma check_conditions_first_false failed args ok c rest w w1 v w2 :
  hold_in_order args ok w w1 →
  py_eval (expr c) args w1 = (Return v, w2) →
  truthy v w2 = false →
  check_conditions failed args (ok ++ c :: rest) w = failed c w2.
Proof.
  intros Hok Hev Hf.
  induction Hok as [|c0 rest0 w0 v0 w01 w02 Hev0 Ht0 _ IH]; simpl.
  - unfold bindM. by rewrite Hev, Hf.
  - unfold bindM. rewrite Hev0, Ht0. by apply IH.
Qed.

(** What the snapshot loop maintains, from the world [w0] the wrapper was
    entered in: the guard and the caller's objects are as in [w0], and the
    dict at [old] maps the names seen so far ([orig]) to their copies. *)
Definition snapshot_inv (w0 : World) (old : loc) (w : World)
    (orig : gmap string value) : Prop :=
  fns_enforcing w = fns_enforcing w0 ∧
  (old ∉ dom (store w0)) ∧
  (∀ l, l ∈ dom (store w0) → store w !! l = store w0 !! l) ∧
  ∃ d, store w !! old = Some (CDict d) ∧
       dom d = dom orig ∧
       ∀ name v, orig !! name = Some v →
         ∃ c, d !! name = Some c ∧ is_copy w0 w v c ∧
              ∀ l', c = VRef l' → v ≠ c → l' ≠ old.

Lemma snapshot_arg_inv w0 old w orig rem name v :
  snapshot_inv w0 old w orig →
  ∃ w', snapshot_arg old rem (name, v) w = (Return (rem ∖ {[name]}), w') ∧
        snapshot_inv w0 old w' (<[name := v]> orig).
Proof.
  intros (Hg & Hold & Hframe & d & Hd & Hdom & Hcopies).
  assert (Hsub : ∀ l, l ∈ dom (store w0) → l ∈ dom (store w)).
  { intros l Hl. apply elem_of_dom. rewrite (Hframe l Hl).
    by apply elem_of_dom. }
  assert (Holdw : old ∈ dom (store w)) by (apply elem_of_dom; eauto).
  (* the copy *)
  assert (∃ c w1, copy_copy v w = (Return c, w1) ∧
            fns_enforcing w1 = fns_enforcing w ∧
            store w1 !! old = Some (CDict d) ∧
            (∀ l, l ∈ dom (store w) → store w1 !! l = store w !! l) ∧
            is_copy w0 w1 v c ∧
            (∀ l', c = VRef l' → v ≠ c → l' ≠ old))
    as (c & w1 & Hcopy & Hg1 & Hd1 & Hframe1 & Hc & Hne).
  { destruct v as [| | | | |l];
      try (eexists _, w; split_and!; try done; simpl; congruence).
    simpl. destruct (store w !! l) as [content|] eqn:Hl.
    - unfold bindM, alloc, ret; simpl.
      set (l' := fresh (dom (store w))).
      assert (Hfresh : l' ∉ dom (store w)) by apply is_fresh.
      eexists (VRef l'), _. split; [reflexivity|]. simpl.
      split_and!.
      + done.
      + rewrite lookup_insert_ne; [done|]. intros ->. done.
      + intros l0 Hl0. rewrite lookup_insert_ne; [done|]. intros ->. done.
      + destruct (store w0 !! l) as [content0|] eqn:Hl0; [|done].
        exists l'. split_and!; [done| |].
        * intros Hin. apply Hfresh. by apply Hsub.
        * rewrite lookup_insert_eq. f_equal.
          assert (l ∈ dom (store w0)) as Hin by (apply elem_of_dom; eauto).
          rewrite (Hframe l Hin), Hl0 in Hl. congruence.
      + intros l0 [= <-] _ ->. done.
    - eexists (VRef l), w. split_and!; try done.
      destruct (store w0 !! l) as [content0|] eqn:Hl0; [|done].
      assert (l ∈ dom (store w0)) as Hin by (apply elem_of_dom; eauto).
      rewrite (Hframe l Hin), Hl0 in Hl. congruence. }
  unfold snapshot_arg; py_unfold. rewrite Hcopy.
  unfold dict_setitem. rewrite Hd1. simpl.
  eexists; split; [reflexivity|].
  split; [simpl; congruence|]. split; [done|]. split.
  { intros l Hl. simpl. rewrite lookup_insert_ne by (intros ->; done).
    rewrite Hframe1 by auto. auto. }
  exists (<[name := c]> d). split; [simpl; by rewrite lookup_insert_eq|].
  split; [by rewrite !dom_insert_L, Hdom|].
  assert (Hkeep : ∀ v0 c0, is_copy w0 w v0 c0 →
            (∀ l', c0 = VRef l' → v0 ≠ c0 → l' ≠ old) →
            is_copy w0 (with_store (<[old := CDict (<[name := c]> d)]> (store w1)) w1) v0 c0).
  { intros v0 c0 Hc0 Hne0. destruct v0 as [| | | | |l0]; try done. simpl in *.
    destruct (store w0 !! l0) as [content0|] eqn:Hl0; [|done].
    destruct Hc0 as (l' & -> & Hl' & Hcont). exists l'. repeat split; [done|].
    assert (l' ≠ old).
    { apply Hne0; [done|]. intros [= ->]. apply Hl'. apply elem_of_dom; eauto. }
    rewrite lookup_insert_ne by done.
    rewrite Hframe1; [done|]. apply elem_of_dom; eauto. }
  intros name0 v0. destruct (decide (name = name0)) as [->|Hn].
  - rewrite !lookup_insert_eq. intros [= <-]. exists c. split; [done|].
    split; [|done].
    destruct v as [| | | | |l0]; try done. simpl in *.
    destruct (store w0 !! l0) as [content0|] eqn:Hl0; [|done].
    destruct Hc as (l' & -> & Hl' & Hcont). exists l'. repeat split; [done|].
    assert (l' ≠ old).
    { apply Hne; [done|]. intros [= ->]. apply Hl'. apply elem_of_dom; eauto. }
    by rewrite lookup_insert_ne.
  - rewrite !lookup_insert_ne by done. intros Ho.
    destruct (Hcopies _ _ Ho) as (c0 & Hc0 & Hcp & Hne0).
    exists c0. repeat split; auto.
Qed.

Lemma snapshot_loop_inv w0 old items : ∀ w orig rem,
  snapshot_inv w0 old w orig →
  ∃ w', foldM (snapshot_arg old) rem items w =
          (Return (rem ∖ keys_of items), w') ∧
        snapshot_inv w0 old w'
          (foldl (λ d kv, <[kv.1 := kv.2]> d) orig items).
Proof.
  induction items as [|[name v] items IH]; intros w orig rem Hinv; simpl.
  - exists w. split; [|done]. unfold ret, keys_of; simpl.
    do 2 f_equal. set_solver.
  - destruct (snapshot_arg_inv w0 old w orig rem name v Hinv)
      as (w1 & Hstep & Hinv1).
    destruct (IH w1 _ (rem ∖ {[name]}) Hinv1) as (w2 & Hrest & Hinv2).
    exists w2. split; [|done].
    unfold bindM. rewrite Hstep, Hrest. do 2 f_equal.
    unfold keys_of; simpl. set_solver.
Qed.

(** enforce.py 36-45 when the arguments bind: the run always ends, in a
    world [w1] that satisfies the snapshot invariant for all the bound
    arguments; it returns them with the snapshot when every mutable
    argument was seen, and raises PostconditionFailed otherwise. *)
Lemma bind_and_snapshot_bound conditions a kw w bound_args :
  sig_bind (sig conditions) a kw = inr bound_args →
  ∃ old w1,
    snapshot_inv w old w1 (dict_of_items bound_args) ∧
    bind_and_snapshot conditions a kw w =
      (if decide (mutable_args conditions ∖ keys_of bound_args = ∅)
       then (Return (bound_args, old), w1)
       else unrecognized_mutable
              (mutable_args conditions ∖ keys_of bound_args) w1).
Proof.
  intros Hb. unfold bind_and_snapshot. rewrite Hb.
  set (old := fresh (dom (store w))).
  assert (Hfresh : old ∉ dom (store w)) by apply is_fresh.
  set (wa := with_store (<[old := CDict ∅]> (store w)) w).
  assert (Hinv : snapshot_inv w old wa ∅).
  { split; [done|]. split; [done|]. split.
    - intros l Hl. simpl. rewrite lookup_insert_ne; [done|]. intros ->. done.
    - exists ∅. simpl. rewrite lookup_insert_eq. split; [done|].
      split; [done|]. intros ? ?. by rewrite lookup_empty. }
  destruct (snapshot_loop_inv w old bound_args wa ∅
              (mutable_args conditions) Hinv) as (w1 & Hloop & Hinv1).
  exists old, w1. split; [exact Hinv1|].
  unfold bindM at 1. simpl. unfold bindM at 1. unfold alloc at 1.
  fold old. fold wa. unfold bindM at 1. rewrite Hloop.
  by destruct (decide (mutable_args conditions ∖ keys_of bound_args = ∅)).
Qed.

End WrapperFacts.

(** ** What a run through the wrapper looks like *)

Definition with_post (c : Conditions) (p : list Condition) : Conditions :=
  {| sig := sig c; pre := pre c; post := p; mutable_args := mutable_args c |}.

Section Runs.
Context {H : Host}.

(** The world in which an evaluation phase for [fn] starts from [w], and
    the world it leaves when the phase ended in [w']. *)
Definition guarded (fn : obj_id) (w : World) : World :=
  with_fns_enforcing ({[fn]} ∪ fns_enforcing w) w.

Definition released (fn : obj_id) (w' : World) : World :=
  with_fns_enforcing (fns_enforcing w' ∖ {[fn]}) w'.

(** The call of the wrapper for [fn] from world [w] gets as far as
    invoking [fn], in world [w_call]: either through the reentrant bypass,
    or after binding, snapshotting and a successful precondition phase. *)
Definition reaches_call (fn : obj_id) (conditions : Conditions)
    (a : list value) (kw : gmap string value) (w w_call : World) : Prop :=
  (fn ∈ fns_enforcing w ∧ w_call = w) ∨
  ((fn ∉ fns_enforcing w) ∧
   ∃ bs w1, bind_and_snapshot conditions a kw w = (Return bs, w1) ∧
            check_pre fn conditions bs.1 w1 = (Return tt, w_call)).

(** A checked run in which nothing fails: the arguments bind, every
    mutable argument is bound, every precondition is true, [fn] returns
    [r] (from [w_call] to [w_ret]), every postcondition is true, and each
    phase finds [fn] still guarded when it ends. *)
Definition checked_run_holds (fn : obj_id) (conditions : Conditions)
    (a : list value) (kw : gmap string value) (w : World) (r : value)
    (w_call w_ret w_end : World) : Prop :=
  (fn ∉ fns_enforcing w) ∧
  ∃ bound_args old w1 w2 w4,
    sig_bind (sig conditions) a kw = inr bound_args ∧
    mutable_args conditions ⊆ keys_of bound_args ∧
    bind_and_snapshot conditions a kw w = (Return (bound_args, old), w1) ∧
    hold_in_order (dict_merge (fn_globals fn) (dict_of_items bound_args))
      (pre conditions) (guarded fn w1) w2 ∧
    fn ∈ fns_enforcing w2 ∧
    w_call = released fn w2 ∧
    py_call fn a kw w_call = (Return r, w_ret) ∧
    hold_in_order (post_args fn bound_args r old) (post conditions)
      (guarded fn w_ret) w4 ∧
    fn ∈ fns_enforcing w4 ∧
    w_end = released fn w4.

(** An invocation in which every condition that is evaluated is true and
    [fn] returns [r]: a checked run as above, or the reentrant bypass,
    which evaluates none. *)
Definition contracts_hold (fn : obj_id) (conditions : Conditions)
    (a : list value) (kw : gmap string value) (w : World) (r : value)
    (w_call w_ret w_end : World) : Prop :=
  (fn ∈ fns_enforcing w ∧ w_call = w ∧ w_end = w_ret ∧
   py_call fn a kw w = (Return r, w_ret)) ∨
  checked_run_holds fn conditions a kw w r w_call w_ret w_end.

End Runs.

(** ** The wrapper, call by call *)

Section WrapperShape.
Context {H : Host}.

Lemma wrapper_checked fn conditions a kw w :
  fn ∉ fns_enforcing w →
  wrapper fn conditions a kw w =
    (bs <- bind_and_snapshot conditions a kw ;;
     _ <- check_pre fn conditions bs.1 ;;
     ret_ <- py_call fn a kw ;;
     _ <- check_post fn conditions bs.1 ret_ bs.2 ;;
     ret ret_) w.
Proof. intros Hn. unfold wrapper. by destruct (decide _). Qed.

Lemma wrapper_bypass fn conditions a kw w :
  fn ∈ fns_enforcing w →
  wrapper fn conditions a kw w = py_call fn a kw w.
Proof. intros Hn. unfold wrapper. by destruct (decide _). Qed.

Lemma check_phase_hold fn failed args conds w w' :
  hold_in_order args conds (guarded fn w) w' →
  fn ∈ fns_enforcing w' →
  currently_enforcing fn (check_conditions failed args conds) w =
    (Return tt, released fn w').
Proof.
  intros Hh Hin. apply currently_enforcing_run; [|done].
  by apply check_conditions_hold.
Qed.

End WrapperShape.

Section WrapperTheorems.
Context {H : Host}.

(** C6. When the callable is in the reentrancy guard, the wrapper is the
    callable: it returns what [fn] returns on the same arguments and
    leaves the world [fn] leaves, whatever the conditions, the signature
    binder and the evaluator are (none is consulted).  And in a checked
    call the evaluator only ever runs while [fn] is guarded, so a
    condition that calls the wrapper again falls into that bypass: an
    evaluator may behave in any way outside guarded worlds without
    changing the wrapper's behaviour. *)
Theorem reentrant_call_bypasses_checking fn conditions a kw w :
  (fn ∈ fns_enforcing w →
   wrapper fn conditions a kw w = py_call fn a kw w ∧
   ∀ (H' : Host) conditions',
     @py_call H' = @py_call H →
     @wrapper H' fn conditions' a kw w = py_call fn a kw w) ∧
  ((fn ∉ fns_enforcing w) →
   ∀ ev : string → gmap string value → M value,
     (∀ e args w', fn ∈ fns_enforcing w' →
        ev e args w' = py_eval e args w' ∧
        fn ∈ fns_enforcing (py_eval e args w').2) →
     @wrapper (with_py_eval H ev) fn conditions a kw w =
     wrapper fn conditions a kw w).
Proof.
  split.
  - intros Hin. split; [by apply wrapper_bypass|].
    intros H' conditions' Hcall.
    rewrite (@wrapper_bypass H') by done. by rewrite Hcall.
  - intros Hn ev Hev.
    assert (Hloop : ∀ failed args conds w0,
              fn ∈ fns_enforcing w0 →
              @check_conditions (with_py_eval H ev) failed args conds w0 =
              check_conditions failed args conds w0).
    { intros failed args conds. induction conds as [|c rest IH]; intros w0 Hin.
      - done.
      - simpl. unfold bindM; simpl.
        destruct (Hev (expr c) args w0 Hin) as [-> Hin'].
        destruct (py_eval (expr c) args w0) as [[v|e] w1]; [|done].
        simpl in Hin'. destruct (truthy v w1); [by apply IH|done]. }
    assert (Hphase : ∀ failed args conds w0,
              @currently_enforcing unit fn
                (@check_conditions (with_py_eval H ev) failed args conds) w0 =
              currently_enforcing fn (check_conditions failed args conds) w0).
    { intros failed args conds w0. unfold currently_enforcing.
      rewrite Hloop; [done|]. simpl. set_solver. }
    rewrite (@wrapper_checked (with_py_eval H ev)), (@wrapper_checked H) by done.
    unfold bindM.
    change (@bind_and_snapshot (with_py_eval H ev)) with (@bind_and_snapshot H).
    destruct (bind_and_snapshot conditions a kw w) as [[bs|e] w1]; [|done].
    unfold check_pre, check_post.
    change (@fn_globals (with_py_eval H ev)) with (@fn_globals H).
    rewrite Hphase.
    destruct (currently_enforcing fn _ w1) as [[[]|e] w2]; [|done].
    change (@py_call (with_py_eval H ev)) with (@py_call H).
    destruct (py_call fn a kw w2) as [[r|e] w3]; [|done].
    unfold post_args.
    change (@fn_globals (with_py_eval H ev)) with (@fn_globals H).
    by rewrite Hphase.
Qed.

(** C5. When the underlying callable raises, the wrapper's caller gets
    that very exception, in the world the callable left; this is so
    whatever the postconditions are: none is evaluated. *)
Theorem implementation_failure_propagates fn conditions a kw w w_call e w' :
  reaches_call fn conditions a kw w w_call →
  py_call fn a kw w_call = (Raise e, w') →
  wrapper fn conditions a kw w = (Raise e, w') ∧
  ∀ post', wrapper fn (with_post conditions post') a kw w = (Raise e, w').
Proof.
  intros Hreach Hcall.
  assert (Hany : ∀ post',
            wrapper fn (with_post conditions post') a kw w = (Raise e, w')).
  { intros post'. destruct Hreach as [[Hin ->] | (Hn & bs & w1 & Hbs & Hpre)].
    - by rewrite wrapper_bypass.
    - rewrite wrapper_checked by done. unfold bindM.
      change (bind_and_snapshot (with_post conditions post') a kw w)
        with (bind_and_snapshot conditions a kw w).
      rewrite Hbs.
      change (check_pre fn (with_post conditions post') bs.1 w1)
        with (check_pre fn conditions bs.1 w1).
      by rewrite Hpre, Hcall. }
  split; [|exact Hany].
  specialize (Hany (post conditions)).
  by destruct conditions.
Qed.





End WrapperTheorems.

(** ** The scope: what its operations preserve *)

(** What the type tests of enforce.py can tell about an object. *)
Inductive kind :=
| KFunction | KBuiltin | KWrapper | KDispatcher | KClass | KOther.

Definition kind_of (o : option obj) : kind :=
  match o with
  | Some OFunction => KFunction
  | Some OBuiltin => KBuiltin
  | Some (OWrapper _ _) => KWrapper
  | Some (ODispatcher _ _) => KDispatcher
  | Some (OClass _) => KClass
  | Some OOther | None => KOther
  end.

Lemma is_function_type_kind o o' :
  kind_of o = kind_of o' → is_function_type o = is_function_type o'.
Proof. by destruct o as [[]|], o' as [[]|]. Qed.

Lemma is_singledispatcher_kind o o' :
  kind_of o = kind_of o' → is_singledispatcher o = is_singledispatcher o'.
Proof. by destruct o as [[]|], o' as [[]|]. Qed.

Lemma is_type_kind o o' : kind_of o = kind_of o' → is_type o = is_type o'.
Proof. by destruct o as [[]|], o' as [[]|]. Qed.

Lemma is_function_type_dom (m : gmap obj_id obj) i :
  is_function_type (m !! i) = true → i ∈ dom m.
Proof. intros Hf. apply elem_of_dom. by destruct (m !! i). Qed.

Lemma isfunction_dom (m : gmap obj_id obj) i :
  isfunction (m !! i) = true → i ∈ dom m.
Proof. intros Hf. apply elem_of_dom. by destruct (m !! i). Qed.

(** [s'] comes after [s]: the scope's settings and the environments are
    the same, both maps of the scope have only gained entries, and every
    object of [s] is still there with the same kind. *)
Definition grows (s s' : State) : Prop :=
  envs s' = envs s ∧ env_store s' = env_store s ∧
  interceptor s' = interceptor s ∧
  wrapper_map s ⊆ wrapper_map s' ∧
  original_map s ⊆ original_map s' ∧
  ∀ i, i ∈ dom (objs s) →
       i ∈ dom (objs s') ∧ kind_of (objs s' !! i) = kind_of (objs s !! i).

(** The dispatchers of [s] are unchanged in [s']. *)
Definition keeps_dispatchers (s s' : State) : Prop :=
  ∀ i d r, objs s !! i = Some (ODispatcher d r) →
           objs s' !! i = Some (ODispatcher d r).

Definition extends (s s' : State) : Prop :=
  grows s s' ∧ keeps_dispatchers s s'.

Lemma grows_refl s : grows s s.
Proof. by repeat split. Qed.

Lemma grows_trans s1 s2 s3 : grows s1 s2 → grows s2 s3 → grows s1 s3.
Proof.
  intros (E1 & S1 & I1 & W1 & O1 & K1) (E2 & S2 & I2 & W2 & O2 & K2).
  split_and!; try congruence; try (etrans; eassumption).
  intros i Hi. destruct (K1 i Hi) as [Hi2 Hk]. destruct (K2 i Hi2) as [Hi3 Hk'].
  split; [done|congruence].
Qed.

Lemma extends_refl s : extends s s.
Proof. split; [apply grows_refl|]. by intros i d r. Qed.

Lemma extends_trans s1 s2 s3 : extends s1 s2 → extends s2 s3 → extends s1 s3.
Proof.
  intros [G1 D1] [G2 D2]. split; [by eapply grows_trans|].
  intros i d r Hi. eauto.
Qed.

Lemma extends_env_of s s' e : extends s s' → env_of s' e = env_of s e.
Proof. intros [(_ & Hs & _) _]. unfold env_of. by rewrite Hs. Qed.

Lemma extends_kind s s' i :
  extends s s' → i ∈ dom (objs s) →
  kind_of (objs s' !! i) = kind_of (objs s !! i).
Proof. intros [(_ & _ & _ & _ & _ & Hk) _] Hi. by apply Hk. Qed.

Lemma extends_dom s s' i : extends s s' → i ∈ dom (objs s) → i ∈ dom (objs s').
Proof. intros [(_ & _ & _ & _ & _ & Hk) _] Hi. by apply Hk. Qed.

Lemma extends_original s s' w f :
  extends s s' → original_map s !! w = Some f → original_map s' !! w = Some f.
Proof.
  intros [(_ & _ & _ & _ & Ho & _) _] Hw. by eapply lookup_weaken.
Qed.

Section ScopeInvariants.
Context {H : Host}.

(** The registry is the cache read backwards, and its keys are objects. *)
Definition coherent (s : State) : Prop :=
  (∀ f w, wrapper_map s !! f = Some w ↔ original_map s !! w = Some f) ∧
  dom (original_map s) ⊆ dom (objs s).

(** [fn] gets no condition from the provider, neither as a function nor
    as a method of some class. *)
Definition carries_no_conditions (fn : obj_id) : Prop :=
  has_any (get_fn_conditions fn) = false ∧
  ∀ cls c, methods (get_class_conditions cls) !! fn = Some c →
           has_any c = false.

(** A cached wrapper that is not the callable itself was built from
    conditions. *)
Definition cache_ok (s : State) : Prop :=
  ∀ f w, wrapper_map s !! f = Some w → carries_no_conditions f → w = f.

(** An object of [s0] registered in [s] either was registered so in [s0]
    or is registered for itself. *)
Definition registered_since (s0 s : State) : Prop :=
  ∀ v f, original_map s !! v = Some f → v ∈ dom (objs s0) →
         original_map s0 !! v = Some f ∨ f = v.

(** What every step of an activation started in [s0] maintains. *)
Definition scope_inv (s0 s : State) : Prop :=
  coherent s ∧ cache_ok s ∧ extends s0 s ∧ registered_since s0 s.

Lemma scope_inv_start s0 : coherent s0 → cache_ok s0 → scope_inv s0 s0.
Proof.
  intros Hc Hk. split_and!; [done|done|apply extends_refl|].
  intros v f Hv _. by left.
Qed.

(** A step that leaves both maps alone keeps the invariant, provided the
    objects of [s] keep their kind and the dispatchers of [s0] are not
    modified. *)
Lemma scope_inv_objs s0 s o' :
  scope_inv s0 s →
  (∀ i, i ∈ dom (objs s) →
        i ∈ dom o' ∧ kind_of (o' !! i) = kind_of (objs s !! i)) →
  (∀ i d r, objs s0 !! i = Some (ODispatcher d r) →
            o' !! i = Some (ODispatcher d r)) →
  scope_inv s0 (with_objs o' s).
Proof.
  intros ([Hinv Hdom] & Hcache & [Hg Hd] & Hreg) Hkind Hdisp.
  split_and!.
  - split; [done|]. simpl. intros i Hi. by apply Hkind, Hdom.
  - done.
  - split; [|done].
    destruct Hg as (E & S & I & W & O & K). split_and!; try done.
    intros i Hi. destruct (K i Hi) as [Hi' Hk].
    destruct (Hkind i Hi') as [Hi'' Hk']. simpl. split; [done|congruence].
  - done.
Qed.

Lemma extends_objs s o' :
  (∀ i, i ∈ dom (objs s) →
        i ∈ dom o' ∧ kind_of (o' !! i) = kind_of (objs s !! i)) →
  (∀ i d r, objs s !! i = Some (ODispatcher d r) →
            o' !! i = Some (ODispatcher d r)) →
  extends s (with_objs o' s).
Proof. intros Hk Hd. split; [|done]. by split_and!. Qed.

Lemma fresh_objs_kind (m : gmap obj_id obj) o i :
  i ∈ dom m →
  i ∈ dom (<[fresh (dom m) := o]> m) ∧
  kind_of (<[fresh (dom m) := o]> m !! i) = kind_of (m !! i).
Proof.
  intros Hi. assert (fresh (dom m) ≠ i) by (intros <-; by apply (is_fresh (dom m))).
  rewrite dom_insert_L, lookup_insert_ne by done. set_solver.
Qed.

Lemma fresh_objs_lookup (m : gmap obj_id obj) o i x :
  m !! i = Some x → <[fresh (dom m) := o]> m !! i = Some x.
Proof.
  intros Hi. rewrite lookup_insert_ne; [done|].
  intros <-. apply (is_fresh (dom m)), elem_of_dom. eauto.
Qed.

Lemma new_object_spec s0 s o :
  scope_inv s0 s →
  ∃ i s', new_object o s = (Return i, s') ∧
          (i ∉ dom (objs s)) ∧ objs s' !! i = Some o ∧
          scope_inv s0 s' ∧ extends s s' ∧
          wrapper_map s' = wrapper_map s ∧ original_map s' = original_map s.
Proof.
  intros Hinv. eexists _, _. split; [reflexivity|]. split_and!.
  - apply is_fresh.
  - simpl. by rewrite lookup_insert_eq.
  - apply scope_inv_objs; [done| |].
    + intros i Hi. by apply fresh_objs_kind.
    + intros i d r Hi. apply fresh_objs_lookup.
      destruct Hinv as (_ & _ & [_ Hd] & _). by apply Hd.
  - apply extends_objs.
    + intros i Hi. by apply fresh_objs_kind.
    + intros i d r Hi. by apply fresh_objs_lookup.
  - done.
  - done.
Qed.

End ScopeInvariants.

Section WrapFn.
Context {H : Host}.

(** enforce.py 147-148: recording a new pair in both maps. *)
Lemma record_pair_inv s0 s fn w :
  scope_inv s0 s →
  wrapper_map s !! fn = None →
  original_map s !! w = None →
  w ∈ dom (objs s) →
  w = fn ∨ w ∉ dom (objs s0) →
  (carries_no_conditions fn → w = fn) →
  let s' := with_original_map (<[w := fn]> (original_map s))
              (with_wrapper_map (<[fn := w]> (wrapper_map s)) s) in
  scope_inv s0 s' ∧ extends s s'.
Proof.
  intros ([Hinv Hdom] & Hcache & Hext & Hreg) Hfn Hw Hwd Hnew Hnc s'.
  assert (Hss' : extends s s').
  { split; [|by intros i d r].
    split_and!; try done; simpl.
    - by apply insert_subseteq.
    - by apply insert_subseteq. }
  split; [|done]. split_and!.
  - split; simpl.
    + intros f w'. destruct (decide (f = fn)) as [->|Hf].
      * rewrite lookup_insert_eq. split.
        -- intros [= <-]. by rewrite lookup_insert_eq.
        -- intros Hw'. destruct (decide (w = w')) as [->|Hne]; [done|].
           rewrite lookup_insert_ne in Hw' by done.
           apply Hinv in Hw'. congruence.
      * rewrite lookup_insert_ne by done.
        destruct (decide (w = w')) as [<-|Hne].
        -- rewrite lookup_insert_eq. split; [|congruence].
           intros Hc. apply Hinv in Hc. congruence.
        -- rewrite lookup_insert_ne by done. apply Hinv.
    + rewrite dom_insert_L. set_solver.
  - intros f w'. simpl. destruct (decide (fn = f)) as [<-|Hf].
    + rewrite lookup_insert_eq. intros [= <-]. by auto.
    + rewrite lookup_insert_ne by done. apply Hcache.
  - by eapply extends_trans.
  - intros v f. simpl. destruct (decide (w = v)) as [<-|Hne].
    + rewrite lookup_insert_eq. intros [= <-] Hv.
      destruct Hnew as [->|]; [by right|done].
    + rewrite lookup_insert_ne by done. apply Hreg.
Qed.

(** What [_wrap_fn] does in a state reached during an activation.  The
    callable must be an object; explicit conditions, when given, must be
    those some class declares for it (as [_wrap_class] passes them). *)
Lemma wrap_fn_spec s0 s fn c :
  scope_inv s0 s →
  fn ∈ dom (objs s) →
  (∀ c', c = Some c' →
         ∃ cls, methods (get_class_conditions cls) !! fn = Some c') →
  ∃ w s',
    _wrap_fn fn c s = (Return w, s') ∧
    scope_inv s0 s' ∧ extends s s' ∧
    w ∈ dom (objs s') ∧
    (original_map s' !! w = Some fn ∨
     (w = fn ∧ is_Some (original_map s !! fn) ∧ s' = s)) ∧
    (carries_no_conditions fn → w = fn ∧ objs s' = objs s).
Proof.
  intros Hinv Hfn Hc. unfold _wrap_fn.
  destruct (wrapper_map s !! fn) as [w|] eqn:Hcached.
  { exists w, s. destruct Hinv as ([Hco Hdom] & Hcache & Hext & Hreg).
    assert (original_map s !! w = Some fn) by by apply Hco.
    split_and!; try done.
    - apply extends_refl.
    - apply Hdom, elem_of_dom. eauto.
    - by left.
    - intros Hnc. split; [|done]. by eapply Hcache. }
  unfold is_enforcement_wrapper.
  destruct (original_map s !! fn) as [f|] eqn:Hregd.
  { rewrite bool_decide_eq_true_2 by eauto.
    exists fn, s. split_and!; try done.
    - apply extends_refl.
    - right. eauto. }
  rewrite bool_decide_eq_false_2 by (intros [? ?]; done).
  set (conditions := default (get_fn_conditions fn) c).
  assert (Hnc : carries_no_conditions fn → has_any conditions = false).
  { intros [Hf Hm]. unfold conditions. destruct c as [c'|]; simpl; [|done].
    destruct (Hc c' eq_refl) as [cls Hcls]. by eapply Hm. }
  unfold bindM. destruct (has_any conditions) eqn:Hany.
  - destruct (new_object_spec s0 s (OWrapper (interceptor s fn) conditions) Hinv)
      as (i & s1 & -> & Hi & Hobj & Hinv1 & Hext1 & Hwm & Hom).
    assert (Hi0 : i ∉ dom (objs s0)).
    { intros Hi0. apply Hi. destruct Hinv as (_ & _ & Hext & _).
      by eapply extends_dom. }
    destruct (record_pair_inv s0 s1 fn i) as [Hinv2 Hext2]; try done.
    + congruence.
    + rewrite Hom. apply not_elem_of_dom. intros Hd. apply Hi.
      destruct Hinv as ([_ Hdom] & _). by apply Hdom.
    + apply elem_of_dom. eauto.
    + by right.
    + intros Hno. apply Hnc in Hno. congruence.
    + eexists i, _. split; [reflexivity|]. split_and!.
      * done.
      * by eapply extends_trans.
      * simpl. apply elem_of_dom. eauto.
      * left. simpl. by rewrite lookup_insert_eq.
      * intros Hno. apply Hnc in Hno. congruence.
  - unfold ret.
    destruct (record_pair_inv s0 s fn fn) as [Hinv2 Hext2]; try done.
    + by left.
    + eexists fn, _. split; [reflexivity|]. split_and!; try done.
      left. simpl. by rewrite lookup_insert_eq.
Qed.

End WrapFn.

(** ** Loops *)

Lemma foldM_inv_prefix {W A B} (f : A → B → Py W A)
    (I : list B → A → W → Prop) (l : list B) a w :
  I [] a w →
  (∀ done x rest a w, l = done ++ x :: rest → I done a w →
     ∃ a' w', f a x w = (Return a', w') ∧ I (done ++ [x]) a' w') →
  ∃ a' w', foldM f a l w = (Return a', w') ∧ I l a' w'.
Proof.
  intros H0 Hstep.
  assert (Hgen : ∀ rest done a w, l = done ++ rest → I done a w →
            ∃ a' w', foldM f a rest w = (Return a', w') ∧ I l a' w').
  { induction rest as [|x rest IH]; intros done a0 w0 Hl HI; simpl.
    - rewrite app_nil_r in Hl. subst. by exists a0, w0.
    - destruct (Hstep done x rest a0 w0 Hl HI) as (a1 & w1 & Hf & HI1).
      destruct (IH (done ++ [x]) a1 w1) as (a2 & w2 & Hr & HI2);
        [by rewrite <- app_assoc|done|].
      exists a2, w2. split; [|done]. unfold bindM. by rewrite Hf. }
  by apply (Hgen l []).
Qed.

Lemma foldM_inv {W A B} (f : A → B → Py W A) (I : A → W → Prop)
    (l : list B) a w :
  I a w →
  (∀ a w x, x ∈ l → I a w → ∃ a' w', f a x w = (Return a', w') ∧ I a' w') →
  ∃ a' w', foldM f a l w = (Return a', w') ∧ I a' w'.
Proof.
  intros H0 Hstep.
  apply (foldM_inv_prefix f (λ _, I)); [done|].
  intros done x rest a0 w0 -> HI. apply Hstep; [|done].
  set_solver.
Qed.

(** ** Activation *)

Section Activation.
Context {H : Host}.

(** No wrapper is installed at [v]: if [v] is registered at all, it is
    registered as its own original. *)
Definition not_installed (s : State) (v : obj_id) : Prop :=
  ∀ f, original_map s !! v = Some f → f = v.

Definition entry_ok (s : State) (g : obj_id) : Prop :=
  g ∈ dom (objs s) ∧ not_installed s g.

(** A value an environment of the scope may hold before activation: an
    object with no wrapper installed at it, and when it is a dispatcher,
    the same for the implementations in its registry. *)
Definition env_value_ok (s : State) (v : obj_id) : Prop :=
  entry_ok s v ∧
  ∀ d r, objs s !! v = Some (ODispatcher d r) →
         entry_ok s d ∧ ∀ t g, r !! t = Some g → entry_ok s g.

(** A scope that is not active: its maps are coherent and its
    environments hold no wrapper. *)
Definition inactive (s : State) : Prop :=
  coherent s ∧ cache_ok s ∧
  ∀ e k v, e ∈ envs s → env_of s e !! k = Some v → env_value_ok s v.

Lemma setattr_spec s0 s cls name v :
  scope_inv s0 s →
  is_type (objs s !! cls) = true →
  ∃ s', setattr cls name v s = (Return tt, s') ∧
        scope_inv s0 s' ∧ extends s s' ∧
        wrapper_map s' = wrapper_map s ∧ original_map s' = original_map s.
Proof.
  intros Hinv Hcls. unfold setattr.
  destruct (objs s !! cls) as [[| | | |attrs|]|] eqn:Ho; try done.
  eexists. split; [reflexivity|].
  assert (Hk : ∀ i, i ∈ dom (objs s) →
            i ∈ dom (<[cls := OClass (<[name := v]> attrs)]> (objs s)) ∧
            kind_of (<[cls := OClass (<[name := v]> attrs)]> (objs s) !! i)
            = kind_of (objs s !! i)).
  { intros i Hi. rewrite dom_insert_L. split; [set_solver|].
    destruct (decide (cls = i)) as [<-|Hne].
    - by rewrite lookup_insert_eq, Ho.
    - by rewrite lookup_insert_ne. }
  split_and!; try done.
  - apply scope_inv_objs; [done|done|].
    intros i d r Hi. destruct Hinv as (_ & _ & [_ Hd] & _).
    apply Hd in Hi. rewrite lookup_insert_ne; [done|]. congruence.
  - apply extends_objs; [done|].
    intros i d r Hi. rewrite lookup_insert_ne; [done|]. congruence.
Qed.

Lemma wrap_class_spec s0 s cls :
  scope_inv s0 s →
  is_type (objs s !! cls) = true →
  ∃ s', _wrap_class cls (get_class_conditions cls) s = (Return tt, s') ∧
        scope_inv s0 s' ∧ extends s s'.
Proof.
  intros Hinv Hcls. unfold _wrap_class, bindM, getmembers_isfunction.
  destruct (objs s !! cls) as [[| | | |attrs|]|] eqn:Ho; try done.
  set (members := filter _ (map_to_list attrs)).
  assert (Hclsd : cls ∈ dom (objs s)) by (apply elem_of_dom; eauto).
  destruct (foldM_inv
    (λ (_ : unit) (member : string * obj_id),
       match methods (get_class_conditions cls) !! member.2 with
       | Some conditions =>
           bindM (_wrap_fn member.2 (Some conditions))
                 (λ wrapper, setattr cls member.1 wrapper)
       | None => ret tt
       end)
    (λ _ s1, scope_inv s0 s1 ∧ extends s s1) members tt s)
    as ([] & s' & Hrun & Hinv' & Hext').
  - split; [done|apply extends_refl].
  - intros [] s1 [name m] Hm [Hinv1 Hext1]. simpl.
    apply list_elem_of_filter in Hm as [Hfun _]. simpl in Hfun.
    destruct (methods (get_class_conditions cls) !! m) as [c|] eqn:Hc.
    + destruct (wrap_fn_spec s0 s1 m (Some c) Hinv1)
        as (w & s2 & Hw & Hinv2 & Hext2 & _).
      { eapply extends_dom; [done|]. by apply isfunction_dom. }
      { intros c' [= <-]. eauto. }
      destruct (setattr_spec s0 s2 cls name w Hinv2)
        as (s3 & Hs & Hinv3 & Hext3 & _).
      { rewrite (is_type_kind _ (objs s !! cls)); [by rewrite Ho|].
        apply extends_kind; [|done]. by eapply extends_trans. }
      exists tt, s3. unfold bindM. rewrite Hw, Hs. split; [done|].
      split; [done|]. eauto using extends_trans.
    + by exists tt, s1.
  - by exists s'.
Qed.

(** [w] is what wrapping [g] gave. *)
Definition wrapped_of (s : State) (g w : obj_id) : Prop :=
  original_map s !! w = Some g ∨ (w = g ∧ is_Some (original_map s !! g)).

Lemma wrapped_of_extends s s' g w :
  extends s s' → wrapped_of s g w → wrapped_of s' g w.
Proof.
  intros Hext [Hw | [-> [f Hf]]]; [left|right; split; [done|exists f]];
    by eapply extends_original.
Qed.

Lemma register_spec s0 s d f r typ g :
  scope_inv s0 s →
  objs s !! d = Some (ODispatcher f r) →
  d ∉ dom (objs s0) →
  ∃ s', register d typ g s = (Return tt, s') ∧
        objs s' = <[d := ODispatcher f (<[typ := g]> r)]> (objs s) ∧
        scope_inv s0 s' ∧ grows s s' ∧
        wrapper_map s' = wrapper_map s ∧ original_map s' = original_map s.
Proof.
  intros Hinv Hd Hnew. unfold register. rewrite Hd.
  eexists. split; [reflexivity|].
  assert (Hk : ∀ i, i ∈ dom (objs s) →
            i ∈ dom (<[d := ODispatcher f (<[typ := g]> r)]> (objs s)) ∧
            kind_of (<[d := ODispatcher f (<[typ := g]> r)]> (objs s) !! i)
            = kind_of (objs s !! i)).
  { intros i Hi. rewrite dom_insert_L. split; [set_solver|].
    destruct (decide (d = i)) as [<-|Hne].
    - by rewrite lookup_insert_eq, Hd.
    - by rewrite lookup_insert_ne. }
  split_and!; try done.
  apply scope_inv_objs; [done|done|].
  intros i d' r' Hi. rewrite lookup_insert_ne.
  - destruct Hinv as (_ & _ & [_ Hdisp] & _). by apply Hdisp.
  - intros <-. apply Hnew, elem_of_dom. eauto.
Qed.

(** enforce.py 98: the dispatcher built from [v] by wrapping every
    implementation. *)
Lemma transform_wrap_spec s0 s v dflt reg :
  scope_inv s0 s →
  objs s !! v = Some (ODispatcher dflt reg) →
  dflt ∈ dom (objs s) →
  (∀ t g, reg !! t = Some g → g ∈ dom (objs s)) →
  ∃ d1 s' f1 r1,
    _transform_singledispatch v (λ f, _wrap_fn f None) s = (Return d1, s') ∧
    scope_inv s0 s' ∧ extends s s' ∧
    (d1 ∉ dom (objs s)) ∧
    objs s' !! d1 = Some (ODispatcher f1 r1) ∧
    wrapped_of s' dflt f1 ∧
    ∀ t, match reg !! t with
         | Some g => ∃ w, r1 !! t = Some w ∧ wrapped_of s' g w
         | None => r1 !! t = None
         end.
Proof.
  intros Hinv Hv Hdflt Hreg. unfold _transform_singledispatch. rewrite Hv.
  destruct (wrap_fn_spec s0 s dflt None Hinv Hdflt)
    as (f1 & s1 & Hw1 & Hinv1 & Hext1 & Hf1d & Hf1 & _); [done|].
  destruct (new_object_spec s0 s1 (ODispatcher f1 ∅) Hinv1)
    as (d1 & s2 & Hnew & Hd1 & Hobj2 & Hinv2 & Hext2 & Hwm2 & Hom2).
  assert (Hd1s : d1 ∉ dom (objs s)).
  { intros Hin. apply Hd1. by eapply extends_dom. }
  assert (Hd1s0 : d1 ∉ dom (objs s0)).
  { intros Hin. apply Hd1s. destruct Hinv as (_ & _ & Hext & _).
    by eapply extends_dom. }
  assert (Hw_f1 : wrapped_of s1 dflt f1).
  { destruct Hf1 as [?|(-> & ? & ->)]; [by left|by right]. }
  destruct (foldM_inv_prefix
    (λ (_ : unit) (overload : obj_id * obj_id),
       bindM (_wrap_fn overload.2 None)
             (λ f, register d1 overload.1 f))
    (λ done _ s3,
       scope_inv s0 s3 ∧ extends s1 s3 ∧
       ∃ r3, objs s3 !! d1 = Some (ODispatcher f1 r3) ∧
             (∀ t, match r3 !! t with
                   | Some w => ∃ g, reg !! t = Some g ∧ wrapped_of s3 g w
                   | None => True
                   end) ∧
             ∀ t g, (t, g) ∈ done → is_Some (r3 !! t))
    (map_to_list reg) tt s2)
    as ([] & s' & Hrun & Hinv' & Hext' & r1 & Hobj' & Hr1 & Hall).
  - split; [done|]. split; [done|].
    exists ∅. split; [done|]. split.
    + intros t. by rewrite lookup_empty.
    + intros t g Hin. by apply elem_of_nil in Hin.
  - intros done [t g] rest [] s3 Hl (Hinv3 & Hext3 & r3 & Hobj3 & Hr3 & Hdone).
    simpl.
    assert (Hg : reg !! t = Some g).
    { apply elem_of_map_to_list. rewrite Hl. set_solver. }
    destruct (wrap_fn_spec s0 s3 g None Hinv3)
      as (w & s4 & Hw & Hinv4 & Hext4 & _ & Hwg & _).
    { eapply (extends_dom s s3); [by eapply extends_trans|].
      by eapply Hreg. }
    { done. }
    assert (Hobj4 : objs s4 !! d1 = Some (ODispatcher f1 r3)).
    { destruct Hext4 as [_ Hd4]. by apply Hd4. }
    destruct (register_spec s0 s4 d1 f1 r3 t w Hinv4 Hobj4 Hd1s0)
      as (s5 & Hreg5 & Hobjs5 & Hinv5 & Hgrow5 & Hwm5 & Hom5).
    exists tt, s5. unfold bindM. rewrite Hw, Hreg5. split; [done|].
    assert (Hext5 : extends s1 s5).
    { split.
      - eapply grows_trans; [|done].
        eapply extends_trans; [done|done].
      - intros i d r Hi. rewrite Hobjs5, lookup_insert_ne.
        + destruct Hext3 as [_ Hd3]. destruct Hext4 as [_ Hd4]. eauto.
        + intros <-. apply Hd1, elem_of_dom. eauto. }
    assert (Hup : ∀ g0 w0, wrapped_of s3 g0 w0 → wrapped_of s5 g0 w0).
    { intros g0 w0 Hw0. apply (wrapped_of_extends s3 s4) in Hw0; [|done].
      unfold wrapped_of in *. by rewrite Hom5. }
    split_and!; [done|done|].
    exists (<[t := w]> r3). split; [by rewrite Hobjs5, lookup_insert_eq|].
    split.
    + intros t0. destruct (decide (t = t0)) as [<-|Hne].
      * rewrite lookup_insert_eq. exists g. split; [done|].
        unfold wrapped_of. rewrite Hom5.
        destruct Hwg as [?|(-> & ? & ->)]; [by left|by right].
      * rewrite lookup_insert_ne by done. specialize (Hr3 t0).
        destruct (r3 !! t0); [|done].
        destruct Hr3 as (g0 & ? & ?). eauto.
    + intros t0 g0 Hin. apply elem_of_app in Hin as [Hin|Hin].
      * destruct (decide (t = t0)) as [<-|Hne].
        -- rewrite lookup_insert_eq. eauto.
        -- rewrite lookup_insert_ne by done. eauto.
      * apply list_elem_of_singleton in Hin as [= <- <-].
        rewrite lookup_insert_eq. eauto.
  - exists d1, s', f1, r1. split_and!; try done.
    + unfold bindM at 1. rewrite Hw1. unfold bindM at 1. rewrite Hnew.
      unfold bindM at 1. by rewrite Hrun.
    + by eapply extends_trans.
    + by eapply wrapped_of_extends.
    + intros t. specialize (Hr1 t). destruct (reg !! t) as [g|] eqn:Hg.
      * destruct (Hall t g) as [w Hw]; [by apply elem_of_map_to_list|].
        rewrite Hw in Hr1. destruct Hr1 as (g' & Hg' & Hww).
        exists w. split; [done|]. congruence.
      * destruct (r1 !! t); [|done]. destruct Hr1 as (g' & ? & _). congruence.
Qed.

Lemma wrapped_of_original s0 s g w :
  scope_inv s0 s → entry_ok s0 g → wrapped_of s g w →
  original_map s !! w = Some g.
Proof.
  intros (_ & _ & _ & Hreg) [Hg Hni] [Hw|[-> [f Hf]]]; [done|].
  destruct (Hreg g f Hf Hg) as [Hf0| ->]; [|done].
  by rewrite (Hni f Hf0) in Hf.
Qed.

(** What activation leaves at a key that held [v0]: for a dispatcher, a
    new dispatcher over the wrapped implementations; for another function,
    the object registered for [v0] (which is [v0] itself when it carries no
    conditions); for anything else, [v0]. *)
Definition enter_result (s0 : State) (v0 v' : obj_id) (s : State) : Prop :=
  match objs s0 !! v0 with
  | Some (ODispatcher dflt reg) =>
      (v' ∉ dom (objs s0)) ∧
      ∃ f1 r1, objs s !! v' = Some (ODispatcher f1 r1) ∧
               original_map s !! f1 = Some dflt ∧
               ∀ t, match reg !! t with
                    | Some g => ∃ w, r1 !! t = Some w ∧
                                     original_map s !! w = Some g
                    | None => r1 !! t = None
                    end
  | o =>
      (if is_function_type o then original_map s !! v' = Some v0
       else v' = v0) ∧
      (carries_no_conditions v0 → v' = v0)
  end.

Lemma enter_result_extends s0 v0 v' s s' :
  enter_result s0 v0 v' s → extends s s' → enter_result s0 v0 v' s'.
Proof.
  unfold enter_result. intros Hr Hext.
  destruct (objs s0 !! v0) as [[| | |dflt reg| |]|]; simpl in *;
    try (destruct Hr as [Hr ?]; split; [by eapply extends_original|done]);
    try done.
  destruct Hr as (Hnew & f1 & r1 & Hobj & Hf1 & Hr1). split; [done|].
  exists f1, r1. split_and!.
  - destruct Hext as [_ Hd]. by apply Hd.
  - by eapply extends_original.
  - intros t. specialize (Hr1 t). destruct (reg !! t); [|done].
    destruct Hr1 as (w & ? & ?). exists w. split; [done|].
    by eapply extends_original.
Qed.

Lemma enter_binding_spec s0 s next_env k v :
  scope_inv s0 s →
  env_value_ok s0 v →
  next_env !! k = Some v →
  ∃ v' s',
    enter_binding next_env (k, v) s = (Return (<[k := v']> next_env), s') ∧
    scope_inv s0 s' ∧ extends s s' ∧ enter_result s0 v v' s'.
Proof.
  intros Hinv [[Hvd Hni] Hdisp] Hk.
  assert (Hext0 : extends s0 s) by by destruct Hinv as (_ & _ & ? & _).
  assert (Hkind : kind_of (objs s !! v) = kind_of (objs s0 !! v))
    by by apply extends_kind.
  unfold enter_binding, enter_result.
  rewrite (is_function_type_kind _ _ Hkind), (is_singledispatcher_kind _ _ Hkind),
    (is_type_kind _ _ Hkind).
  destruct (objs s0 !! v) as [o|] eqn:Ho; [|by apply not_elem_of_dom in Ho].
  destruct o as [| | fn0 c0 | dflt reg | attrs |]; simpl.
  1-3: (* plain function, builtin, wrapper *)
    destruct (wrap_fn_spec s0 s v None Hinv) as (w & s' & Hw & Hinv' & Hext' & _ & Hwv & Hnc);
      [by eapply extends_dom|done|];
    exists w, s'; unfold bindM; rewrite Hw;
    (split; [destruct (decide (w = v)) as [->|]; [by rewrite insert_id|done]|]);
    (split; [done|]); (split; [done|]);
    (split; [|intros Hno; by apply Hnc]);
    apply (wrapped_of_original s0); [done|done|];
    (destruct Hwv as [?|(-> & ? & ->)]; [by left|by right]).
  - (* dispatcher *)
    destruct (Hdisp dflt reg eq_refl) as [[Hdd Hdni] Hentries].
    assert (Hos : objs s !! v = Some (ODispatcher dflt reg)).
    { destruct Hext0 as [_ Hd]. by apply Hd. }
    destruct (transform_wrap_spec s0 s v dflt reg Hinv Hos)
      as (d1 & s' & f1 & r1 & Hrun & Hinv' & Hext' & Hd1 & Hobj & Hf1 & Hr1).
    { by eapply extends_dom. }
    { intros t g Hg. eapply extends_dom; [done|]. by apply (Hentries t g). }
    exists d1, s'. unfold bindM. rewrite Hrun. split; [done|].
    split; [done|]. split; [done|]. split.
    + intros Hin. apply Hd1. by eapply extends_dom.
    + exists f1, r1. split; [done|]. split.
      * by apply (wrapped_of_original s0).
      * intros t. specialize (Hr1 t). destruct (reg !! t) as [g|] eqn:Hg; [|done].
        destruct Hr1 as (w & ? & Hw). exists w. split; [done|].
        apply (wrapped_of_original s0); [done| |done]. by apply (Hentries t g).
  - (* class *)
    destruct (class_has_any (get_class_conditions v)).
    + destruct (wrap_class_spec s0 s v Hinv) as (s' & Hrun & Hinv' & Hext').
      { by rewrite (is_type_kind _ _ Hkind). }
      exists v, s'. unfold bindM. rewrite Hrun.
      rewrite insert_id by done. by split_and!.
    + exists v, s. rewrite insert_id by done. split_and!; try done.
      apply extends_refl.
  - exists v, s. rewrite insert_id by done. split_and!; try done.
    apply extends_refl.
Qed.

End Activation.

(** ** The two walks over the environments *)

Section Walks.
Context {H : Host}.

(** [next_env] is the outcome of a walk over the environment [e] of [s]:
    the same keys, each value [v] replaced by a value related to it. *)
Definition walked (X : obj_id → obj_id → State → Prop) (s s' : State)
    (e : env_id) (next_env : gmap string obj_id) : Prop :=
  ∀ k, match env_of s e !! k with
       | Some v => ∃ v', next_env !! k = Some v' ∧ X v v' s'
       | None => next_env !! k = None
       end.

Lemma walked_dom X s s' e next_env :
  walked X s s' e next_env → dom next_env = dom (env_of s e).
Proof.
  intros Hw. apply set_eq. intros k. rewrite !elem_of_dom.
  specialize (Hw k). destruct (env_of s e !! k) as [v|].
  - destruct Hw as (v' & -> & _). split; eauto.
  - rewrite Hw. split; intros [? ?]; done.
Qed.

Section Walk.
Variable binding :
  gmap string obj_id → string * obj_id → Py State (gmap string obj_id).
Variable J : State → Prop.
Variable X : obj_id → obj_id → State → Prop.
Variable V : obj_id → Prop.
Variable s : State.

Hypothesis X_extends :
  ∀ v v' s1 s2, X v v' s1 → extends s1 s2 → X v v' s2.
Hypothesis binding_spec :
  ∀ next_env k v s1,
    J s1 → extends s s1 → V v → next_env !! k = Some v →
    ∃ v' s2, binding next_env (k, v) s1 = (Return (<[k := v']> next_env), s2) ∧
             J s2 ∧ extends s1 s2 ∧ X v v' s2.

Lemma walk_env_spec e s1 :
  J s1 → extends s s1 →
  (∀ k v, env_of s e !! k = Some v → V v) →
  ∃ next_env s2,
    foldM binding (env_of s e) (map_to_list (env_of s e)) s1 =
      (Return next_env, s2) ∧
    J s2 ∧ extends s s2 ∧ extends s1 s2 ∧ walked X s s2 e next_env.
Proof.
  intros HJ Hext HV.
  destruct (foldM_inv_prefix binding
    (λ done next_env s2,
       J s2 ∧ (extends s s2 ∧ extends s1 s2) ∧
       ∀ k, match env_of s e !! k with
            | Some v =>
                ∃ v', next_env !! k = Some v' ∧
                      ((k, v) ∈ done → X v v' s2) ∧
                      ((k, v) ∉ done → v' = v)
            | None => next_env !! k = None
            end)
    (map_to_list (env_of s e)) (env_of s e) s1)
    as (next_env & s2 & Hrun & HJ2 & [Hext2 Hext12] & Hkeys).
  - split; [done|]. split; [split; [done|apply extends_refl]|]. intros k.
    destruct (env_of s e !! k) as [v|] eqn:Hk; [|done].
    exists v. split; [done|]. split; [|done].
    intros Hin. by apply elem_of_nil in Hin.
  - intros done [k v] rest next_env s2 Hl (HJ2 & [Hext2 Hext12] & Hkeys).
    assert (Hkv : env_of s e !! k = Some v).
    { apply elem_of_map_to_list. rewrite Hl. set_solver. }
    assert (Hnd : (k, v) ∉ done).
    { pose proof (NoDup_map_to_list (env_of s e)) as Hnd.
      rewrite Hl in Hnd. apply NoDup_app in Hnd as (_ & Hnd & _).
      intros Hin. apply (Hnd _ Hin). set_solver. }
    assert (Hcur : next_env !! k = Some v).
    { specialize (Hkeys k). rewrite Hkv in Hkeys.
      destruct Hkeys as (v' & Hv' & _ & Heq). by rewrite Hv', (Heq Hnd). }
    destruct (binding_spec next_env k v s2 HJ2 Hext2 (HV k v Hkv) Hcur)
      as (v' & s3 & Hb & HJ3 & Hext3 & HX).
    exists (<[k := v']> next_env), s3. split; [done|]. split; [done|].
    split; [split; by eapply extends_trans|].
    intros k0. specialize (Hkeys k0).
    destruct (env_of s e !! k0) as [v0|] eqn:Hk0.
    + destruct Hkeys as (v0' & Hv0' & Hdone & Hnot).
      destruct (decide (k = k0)) as [<-|Hne].
      * rewrite lookup_insert_eq. exists v'. split; [done|].
        assert (v0 = v) as -> by congruence.
        split; [done|]. intros Hnin. exfalso. apply Hnin. set_solver.
      * rewrite lookup_insert_ne by done. exists v0'. split; [done|].
        split.
        -- intros Hin. apply elem_of_app in Hin as [Hin|Hin].
           ++ eapply X_extends; eauto.
           ++ apply list_elem_of_singleton in Hin. congruence.
        -- intros Hnin. apply Hnot. set_solver.
    + destruct (decide (k = k0)) as [<-|Hne]; [congruence|].
      by rewrite lookup_insert_ne.
  - exists next_env, s2. split; [done|]. split; [done|]. split; [done|].
    split; [done|].
    intros k. specialize (Hkeys k).
    destruct (env_of s e !! k) as [v|] eqn:Hk; [|done].
    destruct Hkeys as (v' & Hv' & Hdone & _). exists v'. split; [done|].
    apply Hdone. by apply elem_of_map_to_list.
Qed.

Lemma walk_envs_spec es :
  J s →
  (∀ e k v, e ∈ es → env_of s e !! k = Some v → V v) →
  ∃ pairs s',
    walk_envs binding (map (λ e, (e, env_of s e)) es) s = (Return pairs, s') ∧
    J s' ∧ extends s s' ∧
    pairs.*1 = es ∧
    Forall (λ p, walked X s s' p.1 p.2) pairs.
Proof.
  intros HJ HV. unfold walk_envs.
  destruct (foldM_inv_prefix
    (λ (done : list (env_id * gmap string obj_id)) p,
       bindM (λ s0, (Return (map_to_list (env_of s0 p.1)), s0))
         (λ s_items,
            bindM (foldM binding p.2 s_items)
              (λ next_env, ret (done ++ [(p.1, next_env)]))))
    (λ done pairs s1,
       J s1 ∧ extends s s1 ∧ pairs.*1 = done.*1 ∧
       Forall (λ p, walked X s s1 p.1 p.2) pairs)
    (map (λ e, (e, env_of s e)) es) [] s)
    as (pairs & s' & Hrun & HJ' & Hext' & Hfst & Hall).
  - split; [done|]. split; [apply extends_refl|]. by split.
  - intros done [e ne] rest pairs s1 Hl (HJ1 & Hext1 & Hfst & Hall). simpl.
    assert (Hin : (e, ne) ∈ map (λ e, (e, env_of s e)) es).
    { rewrite Hl. set_solver. }
    apply list_elem_of_fmap in Hin as (e' & [= <- ->] & He).
    destruct (walk_env_spec e s1 HJ1 Hext1)
      as (next_env & s2 & Hw & HJ2 & Hext2 & Hext12 & Hwalked).
    { intros k v. by apply HV. }
    exists (pairs ++ [(e, next_env)]), s2.
    unfold bindM. rewrite (extends_env_of s s1 e Hext1), Hw.
    split; [done|]. split; [done|]. split; [done|]. split.
    + rewrite !fmap_app. simpl. by rewrite Hfst.
    + apply Forall_app. split.
      * eapply Forall_impl; [exact Hall|]. intros [e0 ne0] Hw0 k. simpl in *.
        specialize (Hw0 k). destruct (env_of s e0 !! k); [|done].
        destruct Hw0 as (v' & ? & HX). exists v'. split; [done|].
        by eapply X_extends.
      * by apply Forall_singleton.
  - exists pairs, s'. split_and!; try done.
    rewrite Hfst, <- list_fmap_compose. simpl.
    clear. induction es; simpl; [done|]. by f_equal.
Qed.

End Walk.

End Walks.

Lemma union_covering (a b : gmap string obj_id) : dom b ⊆ dom a → a ∪ b = a.
Proof.
  intros Hd. apply map_eq. intros k. rewrite lookup_union.
  destruct (a !! k) as [x|] eqn:Ha.
  - by destruct (b !! k).
  - assert (b !! k = None) as ->; [|done].
    apply not_elem_of_dom. intros Hk. apply Hd in Hk.
    by apply not_elem_of_dom in Ha.
Qed.

Section Updates.
Context {H : Host}.

(** enforce.py 108-109, 116-117: every environment of the scope ends up
    equal to one of the dicts computed for it; no other is touched. *)
Lemma update_envs_spec s pairs :
  (∀ p, p ∈ pairs → dom p.2 = dom (env_of s p.1)) →
  ∃ E, update_envs pairs s = (Return tt, with_env_store E s) ∧
       (∀ e, e ∉ pairs.*1 → E !! e = env_store s !! e) ∧
       (∀ e, e ∈ pairs.*1 → ∃ ne, (e, ne) ∈ pairs ∧ E !! e = Some ne).
Proof.
  intros Hdom. unfold update_envs.
  destruct (foldM_inv_prefix
    (λ (_ : unit) (p : env_id * gmap string obj_id) s1,
       (Return tt,
        with_env_store (<[p.1 := p.2 ∪ env_of s1 p.1]> (env_store s1)) s1))
    (λ done _ s1,
       ∃ E, s1 = with_env_store E s ∧
            ∀ e, ((e ∉ done.*1) ∧ E !! e = env_store s !! e) ∨
                 (∃ ne, (e, ne) ∈ done ∧ E !! e = Some ne))
    pairs tt s) as ([] & s' & Hrun & E & -> & HE).
  - exists (env_store s). split; [by destruct s|].
    intros e. left. split; [|done]. set_solver.
  - intros done [e ne] rest [] s1 Hl (E & -> & HE). simpl.
    eexists tt, _. split; [reflexivity|].
    exists (<[e := ne]> E). split.
    + unfold with_env_store; simpl. do 2 f_equal.
      rewrite union_covering; [done|].
      pose proof (Hdom (e, ne)) as Hne. simpl in Hne.
      rewrite Hne by (rewrite Hl; set_solver).
      unfold env_of at 1. simpl.
      destruct (HE e) as [[_ ->]|(ne' & Hin & ->)]; [done|]. simpl.
      pose proof (Hdom (e, ne')) as Hne'. simpl in Hne'.
      by rewrite Hne' by (rewrite Hl; set_solver).
    + intros e0. destruct (decide (e = e0)) as [<-|Hne].
      * right. exists ne. rewrite lookup_insert_eq. split; [set_solver|done].
      * rewrite lookup_insert_ne by done.
        destruct (HE e0) as [[Hnin ->]|(ne' & Hin & ->)].
        -- left. split; [|done]. rewrite fmap_app. set_solver.
        -- right. exists ne'. split; [set_solver|done].
  - exists E. split; [done|]. split.
    + intros e He. by destruct (HE e) as [[_ ?]|(ne & Hin & _)];
        [|exfalso; apply He; apply list_elem_of_fmap; by exists (e, ne)].
    + intros e He. destruct (HE e) as [[Hn _]|?]; [done|done].
Qed.

(** enforce.py 92-109 from an inactive scope: the activation ends; the
    state [sw] reached by the walk satisfies the invariant, and the
    environments of the scope then hold the outcome of the walk. *)
Lemma enter_spec s0 :
  inactive s0 →
  ∃ sw E,
    __enter__ s0 = (Return tt, with_env_store E sw) ∧
    scope_inv s0 sw ∧
    (∀ e, e ∉ envs s0 → E !! e = env_store s0 !! e) ∧
    (∀ e, e ∈ envs s0 →
          ∃ ne, E !! e = Some ne ∧ walked (enter_result s0) s0 sw e ne).
Proof.
  intros (Hco & Hcache & Hvals).
  destruct (walk_envs_spec enter_binding (scope_inv s0) (enter_result s0)
              (env_value_ok s0) s0) with (es := envs s0)
    as (pairs & sw & Hwalk & Hinv & Hext & Hfst & Hall).
  - intros v v' s1 s2. apply enter_result_extends.
  - intros ne k v s1 Hinv1 _ Hv Hk. by apply enter_binding_spec.
  - by apply scope_inv_start.
  - intros e k v He Hk. by eapply Hvals.
  - destruct (update_envs_spec sw pairs) as (E & Hupd & Hout & Hin).
    { intros [e ne] Hp. simpl. rewrite (extends_env_of s0 sw) by done.
      rewrite Forall_forall in Hall. by apply (walked_dom _ _ _ _ _ (Hall _ Hp)). }
    exists sw, E. split_and!.
    + unfold __enter__, bindM. by rewrite Hwalk, Hupd.
    + done.
    + intros e He. rewrite Hout by (by rewrite Hfst).
      destruct Hext as [(_ & -> & _) _]. done.
    + intros e He. destruct (Hin e) as (ne & Hp & HE); [by rewrite Hfst|].
      exists ne. split; [done|].
      rewrite Forall_forall in Hall. apply (Hall _ Hp).
Qed.

End Updates.

(** ** Deactivation *)

Definition same_maps (s s' : State) : Prop :=
  wrapper_map s' = wrapper_map s ∧ original_map s' = original_map s.

Section Deactivation.
Context {H : Host}.

Lemma obj_step_extends s s1 o' :
  extends s s1 →
  (∀ i, i ∈ dom (objs s1) →
        i ∈ dom o' ∧ kind_of (o' !! i) = kind_of (objs s1 !! i)) →
  (∀ i d r, objs s !! i = Some (ODispatcher d r) →
            o' !! i = Some (ODispatcher d r)) →
  extends s (with_objs o' s1).
Proof.
  intros [(E & S & I & W & O & K) D] Hk Hd. split; [|done].
  split_and!; try done. intros i Hi.
  destruct (K i Hi) as [Hi1 Hk1]. destruct (Hk i Hi1) as [Hi2 Hk2].
  simpl. split; [done|congruence].
Qed.

Lemma insert_same_kind (m : gmap obj_id obj) j o i :
  kind_of (Some o) = kind_of (m !! j) → j ∈ dom m → i ∈ dom m →
  i ∈ dom (<[j := o]> m) ∧ kind_of (<[j := o]> m !! i) = kind_of (m !! i).
Proof.
  intros Hk Hj Hi. rewrite dom_insert_L. split; [set_solver|].
  destruct (decide (j = i)) as [<-|Hne].
  - by rewrite lookup_insert_eq.
  - by rewrite lookup_insert_ne.
Qed.

Lemma unwrap_class_spec s cls :
  is_type (objs s !! cls) = true →
  ∃ s', _unwrap_class cls s = (Return tt, s') ∧
        extends s s' ∧ same_maps s s'.
Proof.
  intros Hcls. unfold _unwrap_class, bindM, getmembers_isfunction.
  assert (Hclsd : cls ∈ dom (objs s)).
  { apply elem_of_dom. by destruct (objs s !! cls). }
  destruct (objs s !! cls) as [[| | | |attrs|]|] eqn:Ho; try done.
  destruct (foldM_inv
    (λ (_ : unit) (member : string * obj_id) s1,
       match original_map s1 !! member.2 with
       | Some original => setattr cls member.1 original s1
       | None => (Return tt, s1)
       end)
    (λ _ s1, extends s s1 ∧ same_maps s s1)
    (filter (λ nm : string * obj_id, isfunction (objs s !! nm.2) = true)
       (map_to_list attrs)) tt s)
    as ([] & s' & Hrun & Hext' & Hmaps').
  - split; [apply extends_refl|done].
  - intros [] s1 [name m] _ [Hext1 Hmaps1]. simpl.
    destruct (original_map s1 !! m) as [original|]; [|by exists tt, s1].
    unfold setattr.
    assert (Hk1 : kind_of (objs s1 !! cls) = KClass).
    { rewrite (extends_kind s s1) by done. by rewrite Ho. }
    destruct (objs s1 !! cls) as [[| | | |attrs1|]|] eqn:Ho1; try done.
    eexists tt, _. split; [reflexivity|]. split; [|done].
    apply obj_step_extends; [done| |].
    + intros i Hi. apply insert_same_kind; [by rewrite Ho1| |done].
      apply elem_of_dom. eauto.
    + intros i d r Hi. rewrite lookup_insert_ne; [|congruence].
      destruct Hext1 as [_ Hd]. by apply Hd.
  - by exists s'.
Qed.

Lemma unwrap_S n value s :
  _unwrap (S n) value s =
  match original_map s !! value with
  | Some original => (Return original, s)
  | None =>
      if is_singledispatcher (objs s !! value)
      then _transform_singledispatch value (_unwrap n) s
      else if is_type (objs s !! value)
           then (_ <- _unwrap_class value ;; ret value) s
           else (Return value, s)
  end.
Proof. reflexivity. Qed.

Lemma unwrap_registered n g s f :
  original_map s !! g = Some f → _unwrap (S n) g s = (Return f, s).
Proof. intros Hg. simpl. by rewrite Hg. Qed.

(** enforce.py 123-124 on a dispatcher whose implementations are all
    registered: each is replaced by its original, nothing recurses. *)
Lemma transform_unwrap_spec s d f r n :
  objs s !! d = Some (ODispatcher f r) →
  is_Some (original_map s !! f) →
  (∀ t g, r !! t = Some g → is_Some (original_map s !! g)) →
  ∃ d2 s', _transform_singledispatch d (_unwrap (S n)) s = (Return d2, s') ∧
           extends s s' ∧ same_maps s s' ∧ (d2 ∉ dom (objs s)).
Proof.
  intros Hd [f0 Hf] Hr. unfold _transform_singledispatch. rewrite Hd.
  unfold bindM at 1. rewrite (unwrap_registered n f s f0 Hf).
  unfold bindM at 1. unfold new_object at 1.
  set (d2 := fresh (dom (objs s))).
  assert (Hd2 : d2 ∉ dom (objs s)) by apply is_fresh.
  set (s1 := with_objs (<[d2 := ODispatcher f0 ∅]> (objs s)) s).
  destruct (foldM_inv
    (λ (_ : unit) (overload : obj_id * obj_id),
       bindM (_unwrap (S n) overload.2)
             (λ f, register d2 overload.1 f))
    (λ _ s2, extends s s2 ∧ same_maps s s2 ∧
             ∃ r2, objs s2 !! d2 = Some (ODispatcher f0 r2))
    (map_to_list r) tt s1)
    as ([] & s' & Hrun & Hext' & Hmaps' & _).
  - split_and!.
    + apply obj_step_extends; [apply extends_refl| |].
      * intros i Hi. by apply fresh_objs_kind.
      * intros i d' r' Hi. by apply fresh_objs_lookup.
    + done.
    + exists ∅. simpl. by rewrite lookup_insert_eq.
  - intros [] s2 [t g] Hin (Hext2 & [Hwm Hom] & r2 & Hobj2). cbn [fst snd].
    apply elem_of_map_to_list in Hin.
    destruct (Hr t g Hin) as [g0 Hg0].
    unfold bindM. rewrite (unwrap_registered n g s2 g0) by (by rewrite Hom).
    unfold register. rewrite Hobj2.
    eexists tt, _. split; [reflexivity|]. split_and!.
    + apply obj_step_extends; [done| |].
      * intros i Hi. apply insert_same_kind; [by rewrite Hobj2| |done].
        apply elem_of_dom. eauto.
      * intros i d' r' Hi. rewrite lookup_insert_ne.
        -- destruct Hext2 as [_ Hd']. by apply Hd'.
        -- intros <-. apply Hd2, elem_of_dom. eauto.
    + done.
    + eexists. simpl. by rewrite lookup_insert_eq.
  - exists d2, s'. split_and!; try done.
    unfold bindM at 1. by rewrite Hrun.
Qed.

Section AfterActivation.
Variables s0 sw : State.
Variable E : gmap env_id (gmap string obj_id).
Hypothesis Hinv : scope_inv s0 sw.

Let s1 := with_env_store E sw.

(** A value found in an environment after activation. *)
Definition installed_for (v1 : obj_id) : Prop :=
  ∃ v0, env_value_ok s0 v0 ∧ enter_result s0 v0 v1 sw.

(** What deactivation must put in place of [v1]. *)
Definition exit_result (v1 v2 : obj_id) (_ : State) : Prop :=
  ∀ v0, env_value_ok s0 v0 → enter_result s0 v0 v1 sw →
        is_singledispatcher (objs s0 !! v0) = false → v2 = v0.

Lemma kind_after_activation s v :
  extends s1 s → v ∈ dom (objs s0) →
  kind_of (objs s !! v) = kind_of (objs s0 !! v).
Proof.
  intros Hext Hv. destruct Hinv as (_ & _ & Hext0 & _).
  rewrite (extends_kind s1 s) by (try done; by eapply (extends_dom s0 sw)).
  by apply (extends_kind s0 sw).
Qed.

Lemma exit_binding_spec s fuel next_env k v1 :
  extends s1 s → same_maps s1 s →
  installed_for v1 → 2 ≤ fuel →
  ∃ v2 s',
    exit_binding fuel next_env (k, v1) s =
      (Return (<[k := v2]> next_env), s') ∧
    (extends s1 s' ∧ same_maps s1 s') ∧ extends s s' ∧
    exit_result v1 v2 s'.
Proof.
  intros Hext [Hwm Hom] (v0 & [[Hv0d Hv0ni] Hv0disp] & Hres) Hfuel.
  destruct fuel as [|[|n]]; [lia|lia|].
  destruct Hinv as (Hco & Hcache & Hext0 & Hreg).
  unfold exit_binding. unfold bindM at 1. cbn [fst snd]. rewrite unwrap_S.
  change (original_map s1) with (original_map sw) in Hom.
  rewrite Hom.
  (* what a candidate original [v] of [v1] tells *)
  assert (Hcand : ∀ v, env_value_ok s0 v → enter_result s0 v v1 sw →
            is_singledispatcher (objs s0 !! v) = false →
            (is_function_type (objs s0 !! v) = true ∧
             original_map sw !! v1 = Some v) ∨
            (is_function_type (objs s0 !! v) = false ∧ v1 = v)).
  { intros v _ Hr Hnd. unfold enter_result in Hr.
    destruct (objs s0 !! v) as [[| | | | |]|]; simpl in *; try done;
      destruct Hr as [Hr _]; auto. }
  destruct (original_map sw !! v1) as [f|] eqn:Hf.
  - exists f, s. split; [done|]. split; [by split|].
    split; [apply extends_refl|].
    intros v [[Hvd Hvni] Hvdisp] Hr Hnd.
    destruct (Hcand v) as [[_ Hv]|[_ ->]]; try done; [congruence|].
    destruct (Hreg v f Hf Hvd) as [Hf0|]; [|done]. by apply Hvni.
  - assert (Hk : is_singledispatcher (objs s !! v1) = true ∨
                 (is_singledispatcher (objs s !! v1) = false ∧ v1 = v0)).
    { unfold enter_result in Hres.
      destruct (objs s0 !! v0) as [o|] eqn:Ho0;
        [|by apply not_elem_of_dom in Ho0].
      destruct o as [| | fn0 c0 | dflt reg | attrs |]; simpl in Hres;
        try (destruct Hres as [Hres _]; congruence);
        try (destruct Hres as [-> _]; right; split; [|done];
             rewrite (is_singledispatcher_kind _ (objs s0 !! v0));
             [by rewrite Ho0|by apply kind_after_activation]).
      destruct Hres as (_ & f1 & r1 & Hobj & _). left.
      destruct Hext as [_ Hd]. by rewrite (Hd v1 f1 r1 Hobj). }
    destruct Hk as [Hdisp | [Hnd ->]].
    + rewrite Hdisp.
      (* [v1] is a dispatcher built by the activation *)
      assert (∃ f1 r1, objs sw !! v1 = Some (ODispatcher f1 r1) ∧
                is_Some (original_map sw !! f1) ∧
                ∀ t g, r1 !! t = Some g → is_Some (original_map sw !! g))
        as (f1 & r1 & Hobj & Hf1 & Hr1).
      { unfold enter_result in Hres.
        destruct (objs s0 !! v0) as [o|] eqn:Ho0;
          [|by apply not_elem_of_dom in Ho0].
        destruct o as [| | fn0 c0 | dflt reg | attrs |]; simpl in Hres;
          try (destruct Hres as [Hres _]; congruence);
          try (destruct Hres as [-> _];
               rewrite (is_singledispatcher_kind _ (objs s0 !! v0)) in Hdisp;
               [by rewrite Ho0 in Hdisp|by apply kind_after_activation]).
        destruct Hres as (_ & f1 & r1 & Hobj & Hf1 & Hr1).
        exists f1, r1. split; [done|]. split; [eauto|].
        intros t g Hg. specialize (Hr1 t).
        destruct (reg !! t); [|congruence].
        destruct Hr1 as (w & Hw & ?). rewrite Hg in Hw. injection Hw as <-.
        eauto. }
      destruct (transform_unwrap_spec s v1 f1 r1 n)
        as (d2 & s' & Hrun & Hext' & [Hwm' Hom'] & Hd2).
      { destruct Hext as [_ Hd]. by apply Hd. }
      { by rewrite Hom. }
      { intros t g Hg. rewrite Hom. by eapply Hr1. }
      exists d2, s'. rewrite Hrun. split; [done|].
      split; [split; [by eapply extends_trans|
                        split; [congruence|rewrite Hom'; exact Hom]]|].
      split; [done|].
      intros v [[Hvd Hvni] Hvdisp] Hr Hndv.
      destruct (Hcand v) as [[_ Hv]|[Hnf ->]]; try done.
      rewrite (is_singledispatcher_kind _ (objs s0 !! v)) in Hdisp;
        [congruence|by apply kind_after_activation].
    + rewrite Hnd.
      assert (Hx : ∀ s', exit_result v0 v0 s').
      { intros s' v [[Hvd Hvni] Hvdisp] Hr Hndv.
        destruct (Hcand v) as [[_ Hv]|[_ ->]]; try done. }
      destruct (is_type (objs s !! v0)) eqn:Hty.
      * destruct (unwrap_class_spec s v0 Hty) as (s' & Hrun & Hext' & [Hwm' Hom']).
        exists v0, s'. unfold bindM. rewrite Hrun. split; [done|].
        split; [split; [by eapply extends_trans|
                        split; [congruence|rewrite Hom'; exact Hom]]|].
        split; [done|]. apply Hx.
      * exists v0, s. split; [done|]. split; [by split|].
        split; [apply extends_refl|]. apply Hx.
Qed.

End AfterActivation.

End Deactivation.

Section Cycle.
Context {H : Host}.

(** enforce.py 111-118 right after an activation: with room for two
    nested calls of [_unwrap], the deactivation ends, returns False,
    leaves both maps as they are, and puts at each key of the scope's
    environments what [exit_result] asks for. *)
Lemma exit_spec s0 sw E fuel :
  inactive s0 →
  scope_inv s0 sw →
  (∀ e, e ∈ envs s0 →
        ∃ ne, E !! e = Some ne ∧ walked (enter_result s0) s0 sw e ne) →
  2 ≤ fuel →
  ∃ sx E2,
    __exit__ fuel (with_env_store E sw) = (Return false, with_env_store E2 sx) ∧
    same_maps sw sx ∧
    (∀ e, e ∉ envs s0 → E2 !! e = E !! e) ∧
    (∀ e, e ∈ envs s0 →
          ∃ ne ne2, E !! e = Some ne ∧ E2 !! e = Some ne2 ∧
                    walked (exit_result s0 sw) (with_env_store E sw) sx e ne2).
Proof.
  intros (Hco & Hcache & Hvals) Hinv HE Hfuel.
  set (s1 := with_env_store E sw).
  assert (Henvs : envs s1 = envs s0).
  { destruct Hinv as (_ & _ & [(He & _) _] & _). exact He. }
  destruct (walk_envs_spec (exit_binding fuel)
              (λ s, extends s1 s ∧ same_maps s1 s) (exit_result s0 sw)
              (installed_for s0 sw) s1) with (es := envs s1)
    as (pairs & sx & Hwalk & [Hext Hmaps] & _ & Hfst & Hall).
  - by intros v v' sa sb.
  - intros ne k v sa [Hexta Hmapsa] _ Hv Hk.
    by apply (exit_binding_spec s0 sw E Hinv).
  - split; [apply extends_refl|done].
  - intros e k v1 He Hk. rewrite Henvs in He.
    destruct (HE e He) as (ne & HEe & Hw).
    unfold env_of in Hk. simpl in Hk. rewrite HEe in Hk. simpl in Hk.
    specialize (Hw k). destruct (env_of s0 e !! k) as [v0|] eqn:Hk0.
    + destruct Hw as (v' & Hv' & Hres). exists v0. split; [by eapply Hvals|].
      congruence.
    + congruence.
  - destruct (update_envs_spec sx pairs) as (E2 & Hupd & Hout & Hin).
    { intros [e ne] Hp. simpl. rewrite (extends_env_of s1 sx) by done.
      rewrite Forall_forall in Hall. by apply (walked_dom _ _ _ _ _ (Hall _ Hp)). }
    exists sx, E2. split_and!.
    + unfold __exit__. fold s1. unfold bindM at 1. rewrite Hwalk.
      unfold bindM at 1. by rewrite Hupd.
    + done.
    + intros e He. rewrite Hout by (by rewrite Hfst, Henvs).
      destruct Hext as [(_ & -> & _) _]. done.
    + intros e He. destruct (HE e He) as (ne & HEe & _).
      destruct (Hin e) as (ne2 & Hp & HE2); [by rewrite Hfst, Henvs|].
      exists ne, ne2. split; [done|]. split; [done|].
      rewrite Forall_forall in Hall. apply (Hall _ Hp).
Qed.

(** The registry holds exactly the objects the cache maps some callable
    to. *)
Lemma coherent_registry s v :
  coherent s →
  (is_enforcement_wrapper s v = true ↔ ∃ fn, wrapper_map s !! fn = Some v).
Proof.
  intros [Hco _]. unfold is_enforcement_wrapper.
  rewrite bool_decide_eq_true. split.
  - intros [f Hf]. exists f. by apply Hco.
  - intros [f Hf]. exists f. by apply Hco.
Qed.

Lemma init_inactive heap namespaces es icpt :
  (∀ e k v, e ∈ es → default ∅ (namespaces !! e) !! k = Some v →
            v ∈ dom heap ∧
            ∀ d r, heap !! v = Some (ODispatcher d r) →
                   d ∈ dom heap ∧ ∀ t g, r !! t = Some g → g ∈ dom heap) →
  inactive (__init__ heap namespaces es icpt).
Proof.
  intros Hclosed. split_and!.
  - split; [|done]. intros f w. simpl. by rewrite !lookup_empty.
  - intros f w. simpl. by rewrite lookup_empty.
  - intros e k v He Hk. destruct (Hclosed e k v He Hk) as [Hv Hd].
    split; [split; [done|]|].
    + intros f. simpl. by rewrite lookup_empty.
    + intros d r Hv'. destruct (Hd d r Hv') as [Hdd Hr].
      split; [split; [done|]|].
      * intros f. simpl. by rewrite lookup_empty.
      * intros t g Hg. split; [by eapply Hr|].
        intros f. simpl. by rewrite lookup_empty.
Qed.

End Cycle.

(** * A concrete host: the scenarios of the specification *)

(** [inspect.Signature.bind] and [apply_defaults] for signatures whose
    parameters are all positional-or-keyword. *)
Fixpoint bind_simple (params : Signature) (a : list value)
    (kw : gmap string value) : string + list (string * value) :=
  match params with
  | [] =>
      match a with
      | [] => if decide (kw = ∅) then inr []
              else inl "got an unexpected keyword argument"
      | _ :: _ => inl "too many positional arguments"
      end
  | p :: params' =>
      let rest v a' kw' :=
        match bind_simple params' a' kw' with
        | inr items => inr ((pname p, v) :: items)
        | inl msg => inl msg
        end in
      match a with
      | v :: a' =>
          match kw !! pname p with
          | Some _ => inl "multiple values for argument"
          | None => rest v a' kw
          end
      | [] =>
          match kw !! pname p with
          | Some v => rest v [] (delete (pname p) kw)
          | None =>
              match pdefault p with
              | Some v => rest v [] kw
              | None => inl "missing a required argument"
              end
          end
      end
  end.

Definition param (name : string) : SigParameter :=
  {| pname := name; pkind := POSITIONAL_OR_KEYWORD; pdefault := None |}.

Definition cond (e : string) (file : string) (ln : nat) : Condition :=
  {| expr := e; filename := file; line := ln |}.

Definition no_conditions (s : Signature) : Conditions :=
  {| sig := s; pre := []; post := []; mutable_args := ∅ |}.

(** The callables of the scenarios, by identity. *)
Definition half : obj_id := 1.
Definition push : obj_id := 2.
Definition push_noop : obj_id := 3.
Definition misdeclared : obj_id := 4.
Definition failing : obj_id := 5.
Definition plain : obj_id := 6.
Definition selfcheck : obj_id := 8.
Definition bounded : obj_id := 9.

Definition half_conditions : Conditions :=
  {| sig := [param "x"];
     pre := [cond "x % 2 == 0" "arith.py" 3];
     post := [cond "__return__ * 2 == x" "arith.py" 4];
     mutable_args := ∅ |}.

Definition push_conditions : Conditions :=
  {| sig := [param "l"; param "v"];
     pre := [];
     post := [cond "len(l) == len(__old__['l']) + 1" "stack.py" 12];
     mutable_args := {["l"]} |}.

Definition misdeclared_conditions : Conditions :=
  {| sig := [param "x"];
     pre := [cond "x >= 0" "arith.py" 20];
     post := [cond "True" "arith.py" 21];
     mutable_args := {["acc"]} |}.

Definition failing_conditions : Conditions :=
  {| sig := [param "x"];
     pre := [cond "x >= 0" "arith.py" 30];
     post := [cond "__return__ * 2 == x" "arith.py" 31];
     mutable_args := ∅ |}.

Definition selfcheck_conditions : Conditions :=
  {| sig := [param "x"];
     pre := [cond "x >= 0" "arith.py" 40; cond "selfcheck(x) >= 0" "arith.py" 41];
     post := [];
     mutable_args := ∅ |}.

Definition bounded_conditions : Conditions :=
  {| sig := [param "x"];
     pre := [cond "x >= 0" "arith.py" 50; cond "x % 2 == 0" "arith.py" 51];
     post := [];
     mutable_args := ∅ |}.

Definition example_fn_conditions (fn : obj_id) : Conditions :=
  if decide (fn = half) then half_conditions
  else if decide (fn = push) then push_conditions
  else if decide (fn = push_noop) then push_conditions
  else if decide (fn = misdeclared) then misdeclared_conditions
  else if decide (fn = failing) then failing_conditions
  else if decide (fn = selfcheck) then selfcheck_conditions
  else if decide (fn = bounded) then bounded_conditions
  else no_conditions [].

Definition int_arg (args : gmap string value) (name : string) : option Z :=
  match args !! name with
  | Some (VInt z) => Some z
  | _ => None
  end.

Definition len_of (w : World) (v : option value) : option nat :=
  match v with
  | Some (VRef l) =>
      match store w !! l with
      | Some (CList items) => Some (length items)
      | _ => None
      end
  | _ => None
  end.

Definition old_arg (w : World) (args : gmap string value) (name : string)
    : option value :=
  match args !! "__old__" with
  | Some (VRef o) =>
      match store w !! o with
      | Some (CDict d) => d !! name
      | _ => None
      end
  | _ => None
  end.

Definition answer (o : option bool) : M value :=
  match o with
  | Some b => ret (VBool b)
  | None => raise TypeError [VStr "cannot evaluate"]
  end.

(** The evaluator for the expressions that call nothing. *)
Definition example_eval (e : string) (args : gmap string value) : M value :=
  if decide (e = "True") then ret (VBool true)
  else if decide (e = "x % 2 == 0") then
    answer (x ← int_arg args "x"; Some (x `mod` 2 =? 0)%Z)
  else if decide (e = "x >= 0") then
    answer (x ← int_arg args "x"; Some (0 <=? x)%Z)
  else if decide (e = "__return__ * 2 == x") then
    answer (x ← int_arg args "x"; r ← int_arg args "__return__";
            Some (r * 2 =? x)%Z)
  else if decide (e = "len(l) == len(__old__['l']) + 1") then
    λ w, answer (n ← len_of w (args !! "l");
                 m ← len_of w (old_arg w args "l");
                 Some (n =? m + 1)) w
  else raise TypeError [VStr "cannot evaluate"].

(** The bodies of the callables. *)
Definition example_call (fn : obj_id) (a : list value)
    (kw : gmap string value) : M value :=
  if decide (fn = half) then
    match a with
    | [VInt x] => ret (VInt (x `div` 2))
    | _ => raise TypeError [VStr "half() takes one int"]
    end
  else if decide (fn = push) then
    match a with
    | [VRef l; v] =>
        λ w, match store w !! l with
             | Some (CList items) =>
                 (Return VNone,
                  with_store (<[l := CList (items ++ [v])]> (store w)) w)
             | _ => raise AttributeError [VStr "append"] w
             end
    | _ => raise TypeError [VStr "push() takes a list and a value"]
    end
  else if decide (fn = push_noop) then ret VNone
  else if decide (fn = failing) then raise ValueError [VStr "no"]
  else if decide (fn = selfcheck) then
    match a with
    | [VInt x] => ret (VInt x)
    | _ => raise TypeError [VStr "selfcheck() takes one int"]
    end
  else ret VNone.

(** A class [Arith] whose method [half] has the conditions of [half]. *)
Definition Arith : obj_id := 20.
Definition int_type : obj_id := 21.
Definition halver : obj_id := 10.

Definition example_class_conditions (cls : obj_id) : ClassConditions :=
  if decide (cls = Arith)
  then {| methods := {[half := half_conditions]}; class_has_any := true |}
  else {| methods := ∅; class_has_any := false |}.

Definition base_host : Host :=
  {| sig_bind := bind_simple;
     fn_globals := λ _, ∅;
     get_fn_conditions := example_fn_conditions;
     get_class_conditions := example_class_conditions;
     py_eval := example_eval;
     py_call := example_call |}.

(** The full evaluator: a condition may call [selfcheck], which it finds
    bound to its enforcement wrapper. *)
Definition calling_eval (e : string) (args : gmap string value) : M value :=
  if decide (e = "selfcheck(x) >= 0") then
    match args !! "x" with
    | Some x =>
        r <- @wrapper base_host selfcheck selfcheck_conditions [x] ∅ ;;
        match r with
        | VInt z => ret (VBool (0 <=? z)%Z)
        | _ => raise TypeError [VStr "cannot compare"]
        end
    | None => raise TypeError [VStr "cannot evaluate"]
    end
  else example_eval e args.

Definition example_host : Host := with_py_eval base_host calling_eval.

(** A heap, and one namespace over it. *)
Definition describe : obj_id := 11.

Definition example_heap : gmap obj_id obj :=
  <[half := OFunction]> (<[push := OFunction]> (<[push_noop := OFunction]>
  (<[misdeclared := OFunction]> (<[failing := OFunction]>
  (<[plain := OFunction]> (<[selfcheck := OFunction]>
  (<[bounded := OFunction]>
  (<[halver := ODispatcher plain {[int_type := half]}]>
  (<[describe := ODispatcher plain {[int_type := plain]}]>
  (<[Arith := OClass {["half" := half]}]>
  (<[int_type := OClass ∅]> (<[30 := OOther]> ∅)))))))))))).

Definition example_namespace : gmap string obj_id :=
  <["half" := half]> (<["plain" := plain]> (<["halver" := halver]>
  (<["describe" := describe]>
  (<["Arith" := Arith]> (<["limit" := 30]> ∅))))).

Definition example_scope : State :=
  @__init__ example_heap {[0 := example_namespace]} [0] (λ fn, fn).

Definition empty_world : World := {| fns_enforcing := ∅; store := ∅ |}.

Definition list_world (items : list value) : World :=
  {| fns_enforcing := ∅; store := {[0 := CList items]} |}.

(** * The scope, cycle by cycle *)

(** The environments of [s0] as they are in [s2]: those outside the scope
    unchanged, those of the scope with the same keys, every key that held
    anything but a type-dispatching callable bound to the very same
    object. *)
Definition restored (s0 s2 : State) : Prop :=
  (∀ e, e ∉ envs s0 → env_store s2 !! e = env_store s0 !! e) ∧
  ∀ e, e ∈ envs s0 →
    dom (env_of s2 e) = dom (env_of s0 e) ∧
    ∀ k v, env_of s0 e !! k = Some v →
           is_singledispatcher (objs s0 !! v) = false →
           env_of s2 e !! k = Some v.

(** The registry of [s] has an entry for exactly the objects the cache
    of [s] maps some callable to. *)
Definition registry_mirrors_cache (s : State) : Prop :=
  ∀ v, is_enforcement_wrapper s v = true ↔
       ∃ fn, wrapper_map s !! fn = Some v.

Section ScopeTheorems.
Context {H : Host}.

Lemma enter_exit_cycle s0 fuel :
  inactive s0 → 2 ≤ fuel →
  ∃ sw E sx E2,
    __enter__ s0 = (Return tt, with_env_store E sw) ∧
    __exit__ fuel (with_env_store E sw) = (Return false, with_env_store E2 sx) ∧
    scope_inv s0 sw ∧ same_maps sw sx ∧
    (∀ e, e ∉ envs s0 → E2 !! e = env_store s0 !! e) ∧
    (∀ e, e ∈ envs s0 →
          ∃ ne ne2, E !! e = Some ne ∧ E2 !! e = Some ne2 ∧
                    walked (enter_result s0) s0 sw e ne ∧
                    walked (exit_result s0 sw) (with_env_store E sw) sx e ne2).
Proof.
  intros Hin Hfuel.
  destruct (enter_spec s0 Hin) as (sw & E & Henter & Hinv & Hout & HE).
  destruct (exit_spec s0 sw E fuel Hin Hinv HE Hfuel)
    as (sx & E2 & Hexit & Hmaps & Hout2 & HE2).
  exists sw, E, sx, E2. split_and!; try done.
  - intros e He. by rewrite Hout2, Hout.
  - intros e He. destruct (HE e He) as (ne & HEe & Hw).
    destruct (HE2 e He) as (ne' & ne2 & HEe' & HE2e & Hw2).
    exists ne, ne2. split_and!; try done.
Qed.




End ScopeTheorems.

(** * The theorems at work on the scenarios *)

Lemma example_inactive : @inactive example_host example_scope.
Proof.
  apply init_inactive. intros e k v He Hk.
  apply list_elem_of_singleton in He as ->.
  change (example_namespace !! k = Some v) in Hk.
  apply elem_of_map_to_list in Hk.
  vm_compute in Hk.
  repeat (apply elem_of_cons in Hk as [Hk|Hk]); try (by apply elem_of_nil in Hk);
    injection Hk as -> ->.
  all: split; [apply elem_of_dom; vm_compute; eauto|].
  all: intros d r Hd; vm_compute in Hd; try discriminate.
  all: injection Hd as <- <-.
  all: split; [apply elem_of_dom; vm_compute; eauto|].
  all: intros t g Hg; apply elem_of_map_to_list in Hg; vm_compute in Hg.
  all: repeat (apply elem_of_cons in Hg as [Hg|Hg]); try (by apply elem_of_nil in Hg).
  all: injection Hg as -> ->; apply elem_of_dom; vm_compute; eauto.
Qed.

Lemma example_no_method_conditions fn :
  fn ≠ half →
  ∀ cls c, methods (example_class_conditions cls) !! fn = Some c →
           has_any c = false.
Proof.
  intros Hne cls c. unfold example_class_conditions.
  destruct (decide (cls = Arith)); simpl.
  - by rewrite lookup_singleton_ne.
  - by rewrite lookup_empty.
Qed.

Lemma example_eval_world e args w : (example_eval e args w).2 = w.
Proof.
  unfold example_eval, answer.
  repeat (destruct (decide _); [try done|]); try done.
  - by destruct (int_arg args "x").
  - by destruct (int_arg args "x").
  - destruct (int_arg args "x"); [|done]. simpl.
    by destruct (int_arg args "__return__").
  - destruct (len_of w (args !! "l")); [|done]. simpl.
    by destruct (len_of w (old_arg w args "l")).
Qed.

Lemma calling_eval_guard e args w :
  selfcheck ∈ fns_enforcing w →
  selfcheck ∈ fns_enforcing (calling_eval e args w).2.
Proof.
  intros Hin. unfold calling_eval.
  destruct (decide (e = "selfcheck(x) >= 0")); [|by rewrite example_eval_world].
  destruct (args !! "x") as [x|]; [|done].
  unfold bindM. rewrite (@wrapper_bypass base_host) by done.
  destruct x as [| |z| | |]; try done.
Qed.

(** The snapshot world of [half(4)], and those of the other scenarios. *)
Definition snapshot_world (guard : gset obj_id) (x : Z) : World :=
  {| fns_enforcing := guard; store := {[0 := CDict {["x" := VInt x]}]} |}.



(** C5 on [failing(7)]: the ValueError of the callable comes out as it
    is, for any postconditions. *)
Lemma implementation_failure_propagates_witness :
  @wrapper example_host failing failing_conditions [VInt 7] ∅ empty_world =
    (Raise {| exc_type := ValueError; exc_args := [VStr "no"] |},
     snapshot_world ∅ 7) ∧
  ∀ post',
    @wrapper example_host failing (with_post failing_conditions post')
      [VInt 7] ∅ empty_world =
    (Raise {| exc_type := ValueError; exc_args := [VStr "no"] |},
     snapshot_world ∅ 7).
Proof.
  apply (@implementation_failure_propagates example_host failing
           failing_conditions [VInt 7] ∅ empty_world (snapshot_world ∅ 7)).
  - right. split; [simpl; set_solver|].
    exists ([("x", VInt 7)], 0), (snapshot_world ∅ 7).
    split; vm_compute; reflexivity.
  - reflexivity.
Defined.


(** An evaluator that refuses to run unless [selfcheck] is guarded. *)
Definition guarded_only_eval (e : string) (args : gmap string value)
    : M value :=
  λ w, if decide (selfcheck ∈ fns_enforcing w) then calling_eval e args w
       else raise RuntimeError [VStr "evaluated outside the guard"] w.

(** C6 on [selfcheck], whose second precondition calls [selfcheck] through
    its wrapper: a guarded call is the plain call; the checked call never
    runs the evaluator unguarded, and returns [7]. *)
Lemma reentrant_call_bypasses_checking_witness :
  @wrapper example_host selfcheck selfcheck_conditions [VInt 7] ∅
    {| fns_enforcing := {[selfcheck]}; store := ∅ |} =
  example_call selfcheck [VInt 7] ∅
    {| fns_enforcing := {[selfcheck]}; store := ∅ |} ∧
  @wrapper (with_py_eval example_host guarded_only_eval) selfcheck
    selfcheck_conditions [VInt 7] ∅ empty_world =
  @wrapper example_host selfcheck selfcheck_conditions [VInt 7] ∅ empty_world ∧
  @wrapper example_host selfcheck selfcheck_conditions [VInt 7] ∅ empty_world =
  (Return (VInt 7), snapshot_world ∅ 7).
Proof.
  split; [|split].
  - destruct (@reentrant_call_bypasses_checking example_host selfcheck
                selfcheck_conditions [VInt 7] ∅
                {| fns_enforcing := {[selfcheck]}; store := ∅ |})
      as [Hbypass _].
    destruct Hbypass as [Hplain _]; [simpl; set_solver|].
    exact Hplain.
  - destruct (@reentrant_call_bypasses_checking example_host selfcheck
                selfcheck_conditions [VInt 7] ∅ empty_world)
      as [_ Hchecked].
    apply Hchecked.
    + simpl. set_solver.
    + intros e args w' Hin. split.
      * unfold guarded_only_eval. by destruct (decide _).
      * by apply calling_eval_guard.
  - vm_compute. reflexivity.
Defined.

(** The worlds of scenario 2, [push(l, 7)] on a list holding [1]: after
    the snapshot, and after the call. *)
Definition push_snapshot_store (items : list value) : gmap loc cell :=
  <[0 := CList items]>
    (<[1 := CDict (<["l" := VRef 2]> {["v" := VInt 7]})]>
       {[2 := CList [VInt 1]]}).

Definition push_world (items : list value) : World :=
  {| fns_enforcing := ∅; store := push_snapshot_store items |}.


(** C10 on a handler for [ValueError], a subclass of [Exception]. *)
Lemma contract_failures_escape_Exception_handlers_witness :
  catches ValueError
    {| exc_type := PreconditionFailed; exc_args := [] |} = false ∧
  try_except
    (@wrapper example_host half half_conditions [VInt 3] ∅)
    Exception (λ _, ret VNone) empty_world =
  @wrapper example_host half half_conditions [VInt 3] ∅ empty_world.
Proof.
  destruct contract_failures_escape_Exception_handlers
    as (_ & _ & _ & _ & Hall).
  split.
  - destruct (Hall ValueError {| exc_type := PreconditionFailed; exc_args := [] |})
      as [_ Hh]; [by left|]. by apply Hh.
  - destruct (Hall Exception
                {| exc_type := PreconditionFailed;
                   exc_args := [VStr "Precondition failed at arith.py:3"] |})
      as [_ Hh]; [by left|].
    destruct (Hh eq_refl) as [_ Htry].
    rewrite (Htry World value _ _ empty_world (snapshot_world ∅ 3));
      vm_compute; reflexivity.
Defined.




(** ** Where the code differs from the specification *)




(** * More about the wrapper (enforce.py 23-62) *)

(** A computation that leaves the reentrancy guard as it found it. *)
Definition guard_stable {A} (m : M A) : Prop :=
  ∀ w, fns_enforcing (m w).2 = fns_enforcing w.

Section WrapperGuard.
Context {H : Host}.

Lemma check_conditions_guard_stable failed args conds :
  (∀ e, guard_stable (py_eval e args)) →
  (∀ c, guard_stable (failed c)) →
  guard_stable (check_conditions failed args conds).
Proof.
  intros Hev Hfail. induction conds as [|c rest IH]; intros w; [done|].
  simpl. unfold bindM. specialize (Hev (expr c) w).
  destruct (py_eval (expr c) args w) as [[v|e] w1]; simpl in *; [|done].
  destruct (truthy v w1).
  - by rewrite IH.
  - by rewrite Hfail.
Qed.

Lemma currently_enforcing_guard {A} fn (body : M A) w :
  fn ∉ fns_enforcing w →
  guard_stable body →
  fns_enforcing (currently_enforcing fn body w).2 = fns_enforcing w ∧
  (currently_enforcing fn body w).1 =
    (body (with_fns_enforcing ({[fn]} ∪ fns_enforcing w) w)).1.
Proof.
  intros Hn Hb. unfold currently_enforcing.
  specialize (Hb (with_fns_enforcing ({[fn]} ∪ fns_enforcing w) w)).
  destruct (body _) as [r w2]. simpl in *.
  destruct (decide (fn ∈ fns_enforcing w2)) as [_|Hout].
  - simpl. split; [|done]. rewrite Hb. set_solver.
  - exfalso. apply Hout. rewrite Hb. set_solver.
Qed.

Lemma bind_and_snapshot_frame conditions a kw w :
  fns_enforcing (bind_and_snapshot conditions a kw w).2 = fns_enforcing w ∧
  ∀ l, l ∈ dom (store w) →
       store (bind_and_snapshot conditions a kw w).2 !! l = store w !! l.
Proof.
  destruct (sig_bind (sig conditions) a kw) as [msg|bound] eqn:Hb.
  - unfold bind_and_snapshot, bindM. rewrite Hb. done.
  - destruct (bind_and_snapshot_bound conditions a kw w bound Hb)
      as (old & w1 & (Hg & _ & Hframe & _) & ->).
    by destruct (decide _).
Qed.

(** X1. A call through the wrapper leaves [fns_enforcing] exactly as it
    found it, whether it returns or raises (binding error, unrecognized
    mutable argument, failed or raising condition, exception of the
    callable), as long as the evaluator and the callable themselves leave
    it as they found it. *)
Theorem wrapper_restores_guard fn conditions a kw w :
  (∀ e args, guard_stable (py_eval e args)) →
  (∀ a' kw', guard_stable (py_call fn a' kw')) →
  fns_enforcing (wrapper fn conditions a kw w).2 = fns_enforcing w.
Proof.
  intros Hev Hcall.
  assert (Hphase : ∀ (failed : Condition → M unit) args conds w0,
            (∀ c, guard_stable (failed c)) →
            fn ∉ fns_enforcing w0 →
            fns_enforcing
              (currently_enforcing fn (check_conditions failed args conds) w0).2
            = fns_enforcing w0).
  { intros failed args conds w0 Hf Hn.
    apply currently_enforcing_guard; [done|].
    by apply check_conditions_guard_stable. }
  destruct (decide (fn ∈ fns_enforcing w)) as [Hin|Hn].
  { rewrite wrapper_bypass by done. apply Hcall. }
  rewrite (@wrapper_checked H) by done. unfold bindM.
  destruct (bind_and_snapshot_frame conditions a kw w) as [Hg1 _].
  destruct (bind_and_snapshot conditions a kw w) as [[bs|e] w1];
    simpl in *; [|done].
  assert (Hn1 : fn ∉ fns_enforcing w1) by by rewrite Hg1.
  pose proof (Hphase precondition_failed
                (dict_merge (fn_globals fn) (dict_of_items bs.1))
                (pre conditions) w1 (λ c w0, eq_refl) Hn1) as Hg2.
  unfold check_pre.
  destruct (currently_enforcing fn _ w1) as [[[]|e] w2]; simpl in *;
    [|congruence].
  pose proof (Hcall a kw w2) as Hg3.
  destruct (py_call fn a kw w2) as [[r|e] w3]; simpl in *; [|congruence].
  assert (Hn3 : fn ∉ fns_enforcing w3) by (rewrite Hg3, Hg2; done).
  pose proof (Hphase postcondition_failed (post_args fn bs.1 r bs.2)
                (post conditions) w3 (λ c w0, eq_refl) Hn3) as Hg4.
  unfold check_post.
  destruct (currently_enforcing fn _ w3) as [[[]|e] w4]; simpl in *;
    congruence.
Qed.

(** X2. When the arguments do not bind against the signature, a checked
    call raises TypeError with the binder's message and leaves the world
    untouched: nothing was snapshotted, evaluated or invoked (the outcome is
    the same for any evaluator and any implementation). *)
Theorem unbindable_arguments_raise_TypeError fn conditions a kw w msg :
  fn ∉ fns_enforcing w →
  sig_bind (sig conditions) a kw = inl msg →
  wrapper fn conditions a kw w =
    (Raise {| exc_type := TypeError; exc_args := [VStr msg] |}, w) ∧
  ∀ call ev,
    @wrapper (with_py_call (with_py_eval H ev) call) fn conditions a kw w =
    wrapper fn conditions a kw w.
Proof.
  intros Hn Hb.
  assert (Hbs : bind_and_snapshot conditions a kw w =
                (Raise {| exc_type := TypeError; exc_args := [VStr msg] |}, w)).
  { unfold bind_and_snapshot, bindM. by rewrite Hb. }
  split.
  - rewrite (@wrapper_checked H) by done. unfold bindM. by rewrite Hbs.
  - intros call ev.
    rewrite (@wrapper_checked H) by done.
    rewrite (@wrapper_checked (with_py_call (with_py_eval H ev) call)) by done.
    unfold bindM.
    change (@bind_and_snapshot (with_py_call (with_py_eval H ev) call))
      with (@bind_and_snapshot H).
    by rewrite Hbs.
Qed.

(** X3. When the callable has returned and a postcondition is not true
    (those before it being true), the call raises PostconditionFailed with
    the file and line of that postcondition instead of returning the value;
    the world is the one the callable and the evaluations left, so the
    effects of the callable stay. *)
Theorem first_false_postcondition_fails fn conditions a kw w bound_args old w1
    w2 r w3 ok c rest w4 v w5 :
  fn ∉ fns_enforcing w →
  bind_and_snapshot conditions a kw w = (Return (bound_args, old), w1) →
  check_pre fn conditions bound_args w1 = (Return tt, w2) →
  py_call fn a kw w2 = (Return r, w3) →
  post conditions = ok ++ c :: rest →
  let args := post_args fn bound_args r old in
  hold_in_order args ok (guarded fn w3) w4 →
  py_eval (expr c) args w4 = (Return v, w5) →
  truthy v w5 = false →
  fn ∈ fns_enforcing w5 →
  wrapper fn conditions a kw w =
    (Raise {| exc_type := PostconditionFailed;
              exc_args := [VStr ("Postcondition failed at " +:+ filename c
                                 +:+ ":" +:+ pretty (line c))] |},
     released fn w5).
Proof.
  intros Hn Hbs Hpre Hcall Hpost args Hok Hev Hfalse Hin.
  rewrite (@wrapper_checked H) by done. unfold bindM at 1. rewrite Hbs.
  unfold bindM at 1. simpl. rewrite Hpre.
  unfold bindM at 1. rewrite Hcall.
  unfold bindM at 1. unfold check_post. rewrite Hpost. fold args.
  rewrite (currently_enforcing_run fn
             (check_conditions postcondition_failed args (ok ++ c :: rest))
             w3 _ w5
             (check_conditions_first_false _ _ _ _ rest _ _ _ _ Hok Hev Hfalse)
             Hin).
  reflexivity.
Qed.



End WrapperGuard.

(** * More about the scope (enforce.py 64-149) *)

(** The fields of the [EnforcedConditions] instance that only [_wrap_fn]
    writes, and the environments. *)
Definition same_scope_fields (s s' : State) : Prop :=
  envs s' = envs s ∧ wrapper_map s' = wrapper_map s ∧
  original_map s' = original_map s ∧ env_store s' = env_store s.

Lemma foldM_preserves {W A B} (P : W → Prop) (f : A → B → Py W A) :
  (∀ a x w, P w → P (f a x w).2) →
  ∀ l a w, P w → P (foldM f a l w).2.
Proof.
  intros Hf. induction l as [|x l IH]; intros a w Hw; simpl; [done|].
  unfold bindM. specialize (Hf a x w Hw).
  destruct (f a x w) as [[a'|e] w1]; simpl in *; [by apply IH|done].
Qed.

Section ScopeExtras.
Context {H : Host}.

(** X6. [_wrap_fn] is cached: once it has answered for a callable, asking
    again, with whatever conditions, gives the same object and changes
    nothing (no second wrapper, no new registry entry). *)
Theorem wrap_fn_is_cached fn c c' s w s' :
  _wrap_fn fn c s = (Return w, s') →
  _wrap_fn fn c' s' = (Return w, s').
Proof.
  unfold _wrap_fn.
  destruct (wrapper_map s !! fn) as [w0|] eqn:Hcached.
  { intros [= <- <-]. by rewrite Hcached. }
  destruct (is_enforcement_wrapper s fn) eqn:Hreg.
  { intros [= <- <-]. by rewrite Hcached, Hreg. }
  unfold bindM.
  destruct (has_any (default (get_fn_conditions fn) c)).
  - unfold new_object. intros [= <- <-]. simpl. by rewrite lookup_insert_eq.
  - unfold ret. intros [= <- <-]. simpl. by rewrite lookup_insert_eq.
Qed.

(** X7. Unwrapping undoes wrapping: in a coherent scope, what [_wrap_fn]
    returned for [fn] is mapped back to [fn] by [_unwrap], with no change
    of state, unless [fn] was itself an installed wrapper that [_wrap_fn]
    returned as it was (it is neither cached nor unregistered then). *)
Theorem unwrap_after_wrap s fn c w s' n :
  coherent s →
  is_Some (wrapper_map s !! fn) ∨ original_map s !! fn = None →
  _wrap_fn fn c s = (Return w, s') →
  _unwrap (S n) w s' = (Return fn, s').
Proof.
  intros [Hco _] Hfn. unfold _wrap_fn.
  destruct (wrapper_map s !! fn) as [w0|] eqn:Hcached.
  { intros [= <- <-]. simpl. apply Hco in Hcached. by rewrite Hcached. }
  destruct Hfn as [[? ?]|Hnone]; [done|].
  unfold is_enforcement_wrapper. rewrite Hnone.
  rewrite bool_decide_eq_false_2 by (intros [? ?]; done).
  unfold bindM.
  destruct (has_any (default (get_fn_conditions fn) c)).
  - unfold new_object. intros [= <- <-]. simpl. by rewrite lookup_insert_eq.
  - unfold ret. intros [= <- <-]. simpl. by rewrite lookup_insert_eq.
Qed.

Lemma setattr_fields cls name v s :
  same_scope_fields s (setattr cls name v s).2.
Proof.
  unfold setattr. by destruct (objs s !! cls) as [[| | | | |]|].
Qed.

Lemma register_fields d typ g s : same_scope_fields s (register d typ g s).2.
Proof.
  unfold register. by destruct (objs s !! d) as [[| | | | |]|].
Qed.

Lemma same_scope_fields_trans s1 s2 s3 :
  same_scope_fields s1 s2 → same_scope_fields s2 s3 → same_scope_fields s1 s3.
Proof.
  intros (? & ? & ? & ?) (? & ? & ? & ?). split_and!; congruence.
Qed.

Lemma unwrap_class_fields cls s : same_scope_fields s (_unwrap_class cls s).2.
Proof.
  unfold _unwrap_class, bindM, getmembers_isfunction.
  assert (Hloop : ∀ l s0, same_scope_fields s s0 →
            same_scope_fields s
              (foldM (λ (_ : unit) (member : string * obj_id) s1,
                        match original_map s1 !! member.2 with
                        | Some original => setattr cls member.1 original s1
                        | None => (Return tt, s1)
                        end) tt l s0).2).
  { intros l. apply foldM_preserves. intros [] [name m] s0 Hs0. simpl.
    destruct (original_map s0 !! m); [|done].
    eapply same_scope_fields_trans; [done|apply setattr_fields]. }
  destruct (objs s !! cls) as [[| | | |attrs|]|]; by apply Hloop.
Qed.

Lemma transform_fields fn (t : obj_id → Py State obj_id) s :
  (∀ f s0, same_scope_fields s0 (t f s0).2) →
  same_scope_fields s (_transform_singledispatch fn t s).2.
Proof.
  intros Ht. unfold _transform_singledispatch.
  destruct (objs s !! fn) as [[| | |dflt reg| |]|]; try done.
  unfold bindM at 1. pose proof (Ht dflt s) as H1.
  destruct (t dflt s) as [[first|e] s1]; simpl in *; [|done].
  unfold bindM at 1. unfold new_object at 1.
  set (s2 := with_objs _ s1).
  assert (H2 : same_scope_fields s s2) by done.
  unfold bindM at 1.
  pose proof (foldM_preserves (same_scope_fields s)
                (λ (_ : unit) (overload : obj_id * obj_id),
                   bindM (t overload.2)
                         (λ f, register (fresh (dom (objs s1))) overload.1 f)))
    as Hloop.
  specialize (Hloop ltac:(
    intros [] [typ g] s0 Hs0; unfold bindM; simpl;
    pose proof (Ht g s0) as Hg;
    destruct (t g s0) as [[f|e] s3]; simpl in *;
      [eapply same_scope_fields_trans; [|apply register_fields];
       by eapply same_scope_fields_trans|
       by eapply same_scope_fields_trans]) (map_to_list reg) tt s2 H2).
  destruct (foldM _ tt (map_to_list reg) s2) as [[[]|e] s3]; done.
Qed.

Lemma unwrap_fields fuel : ∀ value s,
  same_scope_fields s (_unwrap fuel value s).2.
Proof.
  induction fuel as [|fuel IH]; intros value s; [done|].
  rewrite unwrap_S.
  destruct (original_map s !! value); [done|].
  destruct (is_singledispatcher (objs s !! value)).
  { by apply transform_fields. }
  destruct (is_type (objs s !! value)); [|done].
  unfold bindM. pose proof (unwrap_class_fields value s) as Hc.
  by destruct (_unwrap_class value s) as [[[]|e] s1].
Qed.

Lemma walk_exit_fields fuel pairs s :
  same_scope_fields s (walk_envs (exit_binding fuel) pairs s).2.
Proof.
  unfold walk_envs.
  apply (foldM_preserves (same_scope_fields s)); [|done].
  intros done [e ne] s0 Hs0. unfold bindM at 1. simpl.
  unfold bindM at 1.
  pose proof (foldM_preserves (same_scope_fields s) (exit_binding fuel)) as Hin.
  specialize (Hin ltac:(
    intros ne0 [k v] s1 Hs1; unfold exit_binding, bindM; simpl;
    pose proof (unwrap_fields fuel v s1) as Hu;
    destruct (_unwrap fuel v s1) as [[o|e0] s2]; simpl in *;
      by eapply same_scope_fields_trans)
    (map_to_list (env_of s0 e)) ne s0 Hs0).
  by destruct (foldM (exit_binding fuel) ne _ s0) as [[ne'|e0] s1].
Qed.

Lemma update_envs_maps pairs s :
  (update_envs pairs s).1 = Return tt ∧
  envs (update_envs pairs s).2 = envs s ∧
  wrapper_map (update_envs pairs s).2 = wrapper_map s ∧
  original_map (update_envs pairs s).2 = original_map s.
Proof.
  unfold update_envs. revert s.
  induction pairs as [|p pairs IH]; intros s; [done|].
  simpl. unfold bindM. simpl.
  destruct (IH (with_env_store (<[p.1 := p.2 ∪ env_of s p.1]> (env_store s)) s))
    as (Hr & He & Hw & Ho).
  destruct (foldM _ tt pairs _) as [[[]|e] s1]; simpl in *; done.
Qed.

(** X8. Deactivation never writes to the cache or to the registry,
    whatever it finds and however it ends; it answers False when it ends
    normally (an exception in flight is not swallowed); and when it fails
    (the recursion of [_unwrap] ran too deep) no environment has been
    rebound: the updates of enforce.py 116-117 come after the whole walk. *)
Theorem exit_keeps_maps fuel s :
  wrapper_map (__exit__ fuel s).2 = wrapper_map s ∧
  original_map (__exit__ fuel s).2 = original_map s ∧
  envs (__exit__ fuel s).2 = envs s ∧
  (∀ b, (__exit__ fuel s).1 = Return b → b = false) ∧
  (∀ e, (__exit__ fuel s).1 = Raise e →
        env_store (__exit__ fuel s).2 = env_store s).
Proof.
  unfold __exit__, bindM, ret.
  pose proof (walk_exit_fields fuel (map (λ e, (e, env_of s e)) (envs s)) s)
    as (He & Hw & Ho & Hs).
  destruct (walk_envs _ _ s) as [[pairs|e] s1]; simpl in *.
  - destruct (update_envs_maps pairs s1) as (Hr & He2 & Hw2 & Ho2).
    destruct (update_envs pairs s1) as [[[]|e] s2]; simpl in *; [|done].
    split_and!; try congruence.
  - split_and!; try done.
Qed.

End ScopeExtras.

(** ** Classes: [_wrap_class] and [_unwrap_class] (enforce.py 72-80, 129-132) *)

(** What [_unwrap_class] puts back for an attribute value [x]. *)
Definition restore (s : State) (x : obj_id) : obj_id :=
  if isfunction (objs s !! x) then default x (original_map s !! x) else x.

(** A cached wrapper is the callable itself or a wrapper object. *)
Definition cache_kinds (s : State) : Prop :=
  ∀ f w, wrapper_map s !! f = Some w →
         w = f ∨ kind_of (objs s !! w) = KWrapper.

Lemma isfunction_kind o o' :
  kind_of o = kind_of o' → isfunction o = isfunction o'.
Proof. by destruct o as [[]|], o' as [[]|]. Qed.

Section ClassRoundTrip.
Context {H : Host}.

Lemma wrap_fn_frame fn c s w s' :
  _wrap_fn fn c s = (Return w, s') →
  (∀ i o, objs s !! i = Some o → objs s' !! i = Some o) ∧
  (cache_kinds s → cache_kinds s') ∧
  (cache_kinds s → isfunction (objs s !! fn) = true →
   isfunction (objs s' !! w) = true).
Proof.
  unfold _wrap_fn.
  destruct (wrapper_map s !! fn) as [w0|] eqn:Hcached.
  { intros [= <- <-]. split_and!; try done.
    intros Hk Hfn. destruct (Hk fn w0 Hcached) as [->|Hw]; [done|].
    by destruct (objs s !! w0) as [[]|]. }
  destruct (is_enforcement_wrapper s fn).
  { intros [= <- <-]. done. }
  unfold bindM. destruct (has_any _).
  - unfold new_object. intros [= <- <-]. simpl. split_and!.
    + intros i o. apply fresh_objs_lookup.
    + intros Hk f w. simpl. destruct (decide (fn = f)) as [<-|Hne].
      * rewrite lookup_insert_eq. intros [= <-]. right.
        by rewrite lookup_insert_eq.
      * rewrite lookup_insert_ne by done. intros Hf.
        destruct (Hk f w Hf) as [->|Hw]; [by left|right].
        destruct (objs s !! w) eqn:Ho; [|done].
        by rewrite (fresh_objs_lookup _ _ _ _ Ho).
    + intros _ _. by rewrite lookup_insert_eq.
  - unfold ret. intros [= <- <-]. simpl. split_and!; try done.
    intros Hk f w. simpl. destruct (decide (fn = f)) as [<-|Hne].
    + rewrite lookup_insert_eq. intros [= <-]. by left.
    + rewrite lookup_insert_ne by done. apply Hk.
Qed.

Lemma wrap_class_attrs s cls attrs :
  coherent s → cache_ok s → cache_kinds s →
  objs s !! cls = Some (OClass attrs) →
  (∀ name m, attrs !! name = Some m → entry_ok s m) →
  ∃ s1 attrs1,
    _wrap_class cls (get_class_conditions cls) s = (Return tt, s1) ∧
    scope_inv s s1 ∧
    objs s1 !! cls = Some (OClass attrs1) ∧
    (∀ name, attrs !! name = None → attrs1 !! name = None) ∧
    ∀ name m, attrs !! name = Some m →
      (isfunction (objs s !! m) = true ∧
       is_Some (methods (get_class_conditions cls) !! m) →
       ∃ w, attrs1 !! name = Some w ∧ original_map s1 !! w = Some m ∧
            isfunction (objs s1 !! w) = true) ∧
      (¬ (isfunction (objs s !! m) = true ∧
          is_Some (methods (get_class_conditions cls) !! m)) →
       attrs1 !! name = Some m).
Proof.
  intros Hco Hcache Hkinds Hcls Hattrs.
  unfold _wrap_class, bindM, getmembers_isfunction. rewrite Hcls.
  set (mc := methods (get_class_conditions cls)).
  set (members := filter _ (map_to_list attrs)).
  assert (Hclsd : cls ∈ dom (objs s)) by (apply elem_of_dom; eauto).
  destruct (foldM_inv_prefix
    (λ (_ : unit) (member : string * obj_id),
       match mc !! member.2 with
       | Some conditions =>
           bindM (_wrap_fn member.2 (Some conditions))
                 (λ wrapper, setattr cls member.1 wrapper)
       | None => ret tt
       end)
    (λ done _ s1,
       scope_inv s s1 ∧ cache_kinds s1 ∧
       ∃ attrs1, objs s1 !! cls = Some (OClass attrs1) ∧
         (∀ name, attrs !! name = None → attrs1 !! name = None) ∧
         ∀ name m, attrs !! name = Some m →
           ((name, m) ∈ done ∧ is_Some (mc !! m) →
            ∃ w, attrs1 !! name = Some w ∧ original_map s1 !! w = Some m ∧
                 isfunction (objs s1 !! w) = true) ∧
           (¬ ((name, m) ∈ done ∧ is_Some (mc !! m)) →
            attrs1 !! name = Some m))
    members tt s)
    as ([] & s1 & Hrun & Hinv1 & _ & attrs1 & Hcls1 & Hnone & Hsome).
  - split_and!; [by apply scope_inv_start|done|].
    exists attrs. split_and!; [done|done|].
    intros name m Hm. split; [|done]. intros [Hin _]. set_solver.
  - intros done [name m] rest [] s1 Hl
      (Hinv1 & Hk1 & attrs1 & Hcls1 & Hnone & Hsome). simpl.
    assert (Hmem : (name, m) ∈ members) by (rewrite Hl; set_solver).
    apply list_elem_of_filter in Hmem as [Hfun Hnm]. simpl in Hfun.
    apply elem_of_map_to_list in Hnm.
    destruct (mc !! m) as [c|] eqn:Hc.
    + destruct (wrap_fn_spec s s1 m (Some c) Hinv1)
        as (w & s2 & Hw & Hinv2 & Hext2 & Hwd & Hwrapped & _).
      { destruct Hinv1 as (_ & _ & Hext & _).
        eapply extends_dom; [done|]. by apply isfunction_dom. }
      { intros c' [= <-]. eauto. }
      destruct (wrap_fn_frame _ _ _ _ _ Hw) as (Hframe & Hk2 & Hfun2).
      specialize (Hk2 Hk1).
      assert (Hfunw : isfunction (objs s2 !! w) = true).
      { apply Hfun2; [done|]. destruct Hinv1 as (_ & _ & Hext & _).
        rewrite (isfunction_kind _ (objs s !! m)); [done|].
        apply extends_kind; [done|]. by apply isfunction_dom. }
      assert (Horig : original_map s2 !! w = Some m).
      { apply (wrapped_of_original s s2); [done|by eapply Hattrs|].
        destruct Hwrapped as [?|(-> & ? & ->)]; [by left|by right]. }
      pose proof (Hframe _ _ Hcls1) as Hcls2.
      destruct (setattr_spec s s2 cls name w Hinv2)
        as (s3 & Hs & Hinv3 & Hext3 & Hwm3 & Hom3).
      { by rewrite Hcls2. }
      exists tt, s3. unfold bindM. rewrite Hw, Hs. split; [done|].
      unfold setattr in Hs. rewrite Hcls2 in Hs.
      injection Hs as Hs3.
      assert (Hcls3 : objs s3 !! cls = Some (OClass (<[name := w]> attrs1))).
      { rewrite <- Hs3. simpl. by rewrite lookup_insert_eq. }
      assert (Hkeep : ∀ x, isfunction (objs s2 !! x) = true →
                           isfunction (objs s3 !! x) = true).
      { intros x Hx. rewrite (isfunction_kind _ (objs s2 !! x)); [done|].
        apply extends_kind; [done|]. by apply isfunction_dom. }
      split_and!; [done| |].
      * intros f w'. rewrite Hwm3. intros Hf.
        destruct (Hk2 f w' Hf) as [->|Hw']; [by left|right].
        rewrite (extends_kind s2 s3); [done|done|].
        apply elem_of_dom. by destruct (objs s2 !! w').
      * exists (<[name := w]> attrs1). split_and!; [done| |].
        -- intros name' Hn. rewrite lookup_insert_ne by congruence.
           by apply Hnone.
        -- intros name' m' Hm'. destruct (decide (name = name')) as [<-|Hne].
           ++ assert (m' = m) as -> by congruence.
              rewrite lookup_insert_eq. split.
              ** intros _. exists w. rewrite Hom3. by auto.
              ** intros []. split; [set_solver|eauto].
           ++ rewrite lookup_insert_ne by done.
              destruct (Hsome name' m' Hm') as [Hyes Hno]. split.
              ** intros [Hin Hmc].
                 destruct Hyes as (w' & Hw' & Ho' & Hf').
                 { split; [|done]. set_solver. }
                 exists w'. split_and!; [done| |].
                 --- rewrite Hom3. by eapply extends_original.
                 --- apply Hkeep.
                     rewrite (isfunction_kind _ (objs s1 !! w')); [done|].
                     apply extends_kind; [done|]. by apply isfunction_dom.
              ** intros Hn. apply Hno. intros [Hin Hmc]. apply Hn.
                 split; [set_solver|done].
    + exists tt, s1. split; [done|]. split_and!; [done|done|].
      exists attrs1. split_and!; [done|done|].
      intros name' m' Hm'. destruct (Hsome name' m' Hm') as [Hyes Hno]. split.
      * intros [Hin Hmc]. apply Hyes. split; [|done].
        apply elem_of_app in Hin as [?|Hin]; [done|].
        apply list_elem_of_singleton in Hin as [= -> ->].
        rewrite Hc in Hmc. by destruct Hmc.
      * intros Hn. apply Hno. intros [Hin Hmc]. apply Hn.
        split; [set_solver|done].
  - exists s1, attrs1. split_and!; try done.
    intros name m Hm. destruct (Hsome name m Hm) as [Hyes Hno]. split.
    + intros [Hf Hmc]. apply Hyes. split; [|done].
      apply list_elem_of_filter. split; [done|].
      by apply elem_of_map_to_list.
    + intros Hn. apply Hno. intros [Hin Hmc]. apply Hn. split; [|done].
      by apply list_elem_of_filter in Hin as [? _].
Qed.

Lemma unwrap_class_run s cls attrs :
  objs s !! cls = Some (OClass attrs) →
  ∃ s', _unwrap_class cls s = (Return tt, s') ∧
        objs s' = <[cls := OClass (restore s <$> attrs)]> (objs s).
Proof.
  intros Hcls. unfold _unwrap_class, bindM, getmembers_isfunction.
  rewrite Hcls.
  set (members := filter _ (map_to_list attrs)).
  destruct (foldM_inv_prefix
    (λ (_ : unit) (member : string * obj_id) s1,
       match original_map s1 !! member.2 with
       | Some original => setattr cls member.1 original s1
       | None => (Return tt, s1)
       end)
    (λ done _ s1,
       original_map s1 = original_map s ∧
       ∃ attrs1, objs s1 = <[cls := OClass attrs1]> (objs s) ∧
         ∀ name, attrs1 !! name =
                 (λ x, if decide ((name, x) ∈ done)
                       then default x (original_map s !! x) else x)
                 <$> attrs !! name)
    members tt s)
    as ([] & s1 & Hrun & Hom & attrs1 & Hobjs & Hlook).
  - split; [done|]. exists attrs. split; [by rewrite insert_id|].
    intros name. by destruct (attrs !! name) as [x|].
  - intros done [name x] rest [] s1 Hl (Hom & attrs1 & Hobjs & Hlook). simpl.
    assert (Hmem : (name, x) ∈ members) by (rewrite Hl; set_solver).
    apply list_elem_of_filter in Hmem as [_ Hnx].
    apply elem_of_map_to_list in Hnx.
    rewrite Hom. destruct (original_map s !! x) as [o|] eqn:Ho.
    + unfold setattr. rewrite Hobjs, lookup_insert_eq.
      eexists tt, _. split; [reflexivity|]. simpl. split; [done|].
      exists (<[name := o]> attrs1). split; [by rewrite insert_insert_eq|].
      intros name'. destruct (decide (name = name')) as [<-|Hne].
      * rewrite lookup_insert_eq, Hnx. simpl.
        rewrite decide_True by set_solver. by rewrite Ho.
      * rewrite lookup_insert_ne by done. rewrite Hlook.
        destruct (attrs !! name') as [x'|]; simpl; [|done].
        f_equal. apply decide_ext. set_solver.
    + exists tt, s1. split; [done|]. split; [done|].
      exists attrs1. split; [done|].
      intros name'. rewrite Hlook.
      destruct (attrs !! name') as [x'|] eqn:Hx'; simpl; [|done].
      f_equal. destruct (decide (name = name')) as [<-|Hne].
      * assert (x' = x) as -> by congruence. rewrite Ho. simpl.
        by repeat case_decide.
      * apply decide_ext. set_solver.
  - exists s1. split; [done|]. rewrite Hobjs. do 2 f_equal.
    apply map_eq. intros name. rewrite Hlook, lookup_fmap.
    destruct (attrs !! name) as [x|] eqn:Hx; simpl; [|done].
    f_equal. unfold restore. case_decide as Hin.
    + apply list_elem_of_filter in Hin as [Hf _]. simpl in Hf. by rewrite Hf.
    + destruct (isfunction (objs s !! x)) eqn:Hf; [|done].
      exfalso. apply Hin. apply list_elem_of_filter. split; [done|].
      by apply elem_of_map_to_list.
Qed.



End ClassRoundTrip.

(** * Names and memoization (crosshair/util.py) *)

(** [s.split(sep)] for a one-character separator: the pieces between the
    separators, in order; never the empty list. *)
Fixpoint str_split (sep : Ascii.ascii) (s : string) : list string :=
  match s with
  | EmptyString => [EmptyString]
  | String c rest =>
      if Ascii.eqb c sep then EmptyString :: str_split sep rest
      else match str_split sep rest with
           | [] => [String c EmptyString]
           | p :: ps => String c p :: ps
           end
  end.

(** [sep.join(parts)] *)
Definition str_join (sep : string) (parts : list string) : string :=
  String.concat sep parts.

Definition dot : Ascii.ascii := Ascii.ascii_of_nat 46.

Definition dquote : string := String (Ascii.ascii_of_nat 34) EmptyString.

(** [ImportError] and [ModuleNotFoundError] of the standard library. *)
Definition ImportError : exc_class := UserClass "ImportError" Exception.
Definition ModuleNotFoundError : exc_class :=
  UserClass "ModuleNotFoundError" ImportError.

(** What [load_by_qualname] ends with: a value ([None] included), an
    exception it let through, or the [ErrorDuringImport] it raised around
    the exception of an import (whose second argument, the last frame of
    the traceback, is not modelled). *)
Inductive load_result :=
| Loaded (o : option obj_id)
| Failed (e : exn)
| ImportFailed (cause : exn).

Definition raised_class (r : load_result) : option exc_class :=
  match r with
  | Loaded _ => None
  | Failed e => Some (exc_type e)
  | ImportFailed _ => Some ErrorDuringImport
  end.

Section Qualname.
(** [getattr(obj, part)], [None] when [hasattr(obj, part)] is false. *)
Variable getattr : obj_id → string → option obj_id.
(** [importlib.import_module] *)
Variable import_module : string → outcome obj_id.

Definition inline_error (name : string) : exn :=
  {| exc_type := ValueError;
     exc_args := [VStr ("object defined inline are non-addressable("
                        +:+ name +:+ ")")] |}.

Definition not_found (part : string) : exn :=
  {| exc_type := NotFound;
     exc_args := [VStr ("Name " +:+ dquote +:+ part +:+ dquote
                        +:+ " not found")] |}.

(** util.py 52-59: the loop over the parts. *)
Fixpoint walk_parts (name : string) (obj : obj_id) (parts : list string)
    : outcome obj_id :=
  match parts with
  | [] => Return obj
  | part :: rest =>
      if decide (part = "<locals>") then Raise (inline_error name)
      else match getattr obj part with
           | None => Raise (not_found part)
           | Some o => walk_parts name o rest
           end
  end.

(** util.py 41-59 *)
Definition walk_qualname (obj : obj_id) (name : string) : outcome obj_id :=
  walk_parts name obj (str_split dot name).

(** util.py 76-89: the loop over the prefix lengths still to try. *)
Fixpoint load_loop (parts : list string) (lengths : list nat) : load_result :=
  match lengths with
  | [] => Loaded None
  | i :: rest =>
      let cur_module_name := str_join "." (take i parts) in
      match import_module cur_module_name with
      | Raise e =>
          if catches ModuleNotFoundError e then load_loop parts rest
          else if catches Exception e then ImportFailed e
          else Failed e
      | Return module =>
          let remaining := str_join "." (drop i parts) in
          if decide (remaining = "") then Loaded (Some module)
          else match walk_qualname module remaining with
               | Return o => Loaded (Some o)
               | Raise e => Failed e
               end
      end
  end.

(** util.py 62-89 *)
Definition load_by_qualname (name : string) : load_result :=
  let parts := str_split dot name in
  load_loop parts (reverse (seq 1 (length parts))).

End Qualname.

(** util.py 106-114.  [saved] is the dict of the closure; [f] runs in a
    world of its own and may fail (it does not call the wrapper itself:
    the dict is out of its reach). *)
Section Memo.
Context {K V W : Type} `{Countable K}.
Variable f : K → Py W V.

Definition memo_wrapper (a : K) : Py (gmap K V * W) V :=
  λ st,
    match st.1 !! a with
    | Some v => (Return v, st)
    | None =>
        match f a st.2 with
        | (Return v, w') => (Return v, (<[a := v]> st.1, w'))
        | (Raise e, w') => (Raise e, (st.1, w'))
        end
    end.

(** [memo(f)]: the wrapper with its empty dict. *)
Definition memo (w : W) : gmap K V * W := (∅, w).

End Memo.

Lemma str_split_nonempty sep s : str_split sep s ≠ [].
Proof.
  destruct s as [|c s]; simpl; [done|].
  destruct (Ascii.eqb c sep); [done|]. by destruct (str_split sep s).
Qed.

Lemma str_split_app sep a b :
  str_split sep (a +:+ String sep b) = str_split sep a ++ str_split sep b.
Proof.
  induction a as [|c a IH]; simpl.
  - by rewrite Ascii.eqb_refl.
  - destruct (Ascii.eqb c sep); [by rewrite IH|].
    rewrite IH. pose proof (str_split_nonempty sep a).
    by destruct (str_split sep a).
Qed.

Lemma walk_parts_app getattr name obj l1 l2 o :
  walk_parts getattr name obj l1 = Return o →
  walk_parts getattr name obj (l1 ++ l2) = walk_parts getattr name o l2.
Proof.
  revert obj. induction l1 as [|p l1 IH]; intros obj; simpl.
  - by intros [= ->].
  - destruct (decide (p = "<locals>")); [done|].
    destruct (getattr obj p); [apply IH|done].
Qed.

(** The outcome of the loop does not depend on the name but for the text
    of the [ValueError]. *)
Lemma walk_parts_name getattr name name' obj l :
  match walk_parts getattr name obj l, walk_parts getattr name' obj l with
  | Return o, Return o' => o = o'
  | Raise e, Raise e' =>
      exc_type e = exc_type e' ∧
      (exc_type e = NotFound → e = e') ∧
      (exc_type e = ValueError → e = inline_error name ∧ e' = inline_error name')
  | _, _ => False
  end.
Proof.
  revert obj. induction l as [|p l IH]; intros obj; simpl; [done|].
  destruct (decide (p = "<locals>")); [done|].
  destruct (getattr obj p); [apply IH|done].
Qed.

Section QualnameTheorems.
Variable getattr : obj_id → string → option obj_id.

(** X11. Walking a dotted name is walking its parts one after the other:
    when [walk_qualname] finds [o] under the name [a], then under the name
    [a.b] it gives what it gives for [b] from [o]: the same object when
    that succeeds, an exception of the same class when it fails (the very
    same exception when the class is [NotFound]). *)
Theorem walk_qualname_composes obj a b o :
  walk_qualname getattr obj a = Return o →
  match walk_qualname getattr obj (a +:+ String dot b),
        walk_qualname getattr o b with
  | Return r, Return r' => r = r'
  | Raise e, Raise e' =>
      exc_type e = exc_type e' ∧ (exc_type e = NotFound → e = e')
  | _, _ => False
  end.
Proof.
  unfold walk_qualname. intros Ha.
  rewrite str_split_app.
  pose proof (walk_parts_name getattr (a +:+ String dot b) a obj
                (str_split dot a)) as Hn.
  rewrite Ha in Hn.
  destruct (walk_parts getattr (a +:+ String dot b) obj (str_split dot a))
    as [o'|] eqn:Ha'; [subst o'|done].
  rewrite (walk_parts_app _ _ _ _ _ _ Ha').
  pose proof (walk_parts_name getattr (a +:+ String dot b) b o
                (str_split dot b)) as Hb.
  destruct (walk_parts getattr (a +:+ String dot b) o (str_split dot b)),
           (walk_parts getattr b o (str_split dot b)); try done.
  by destruct Hb as (? & ? & _).
Qed.

(** X12. How [walk_qualname] fails.  At the first part that is
    [<locals>] or that the object reached so far has no attribute for,
    it raises: [ValueError] for [<locals>], even where the object has an
    attribute of that name, and [NotFound] naming the missing part
    otherwise.  A handler for [ValueError] catches both, a handler for
    [NotFound] only the second. *)
Theorem walk_qualname_failure obj name found part rest o :
  str_split dot name = found ++ part :: rest →
  walk_parts getattr name obj found = Return o →
  part = "<locals>" ∨ getattr o part = None →
  ∃ e, walk_qualname getattr obj name = Raise e ∧
       catches ValueError e = true ∧
       (part = "<locals>" →
        e = inline_error name ∧ catches NotFound e = false) ∧
       (part ≠ "<locals>" →
        e = not_found part ∧ catches NotFound e = true).
Proof.
  intros Hsplit Hfound Hpart. unfold walk_qualname.
  rewrite Hsplit, (walk_parts_app _ _ _ _ _ _ Hfound). simpl.
  destruct (decide (part = "<locals>")) as [->|Hne].
  - eexists. split; [done|]. split_and!; [done|done|done].
  - destruct Hpart as [?|Hnone]; [done|]. rewrite Hnone.
    eexists. split; [done|]. split_and!; [done|done|done].
Qed.

End QualnameTheorems.

(** A part with no dot in it. *)
Definition dot_free (p : string) : Prop := str_split dot p = [p].

Lemma str_split_dot_free s : Forall dot_free (str_split dot s).
Proof.
  induction s as [|c s IH]; simpl.
  - by constructor.
  - destruct (Ascii.eqb c dot) eqn:Hc.
    + by constructor.
    + pose proof (str_split_nonempty dot s).
      destruct (str_split dot s) as [|p ps]; [done|].
      apply Forall_cons in IH as [Hp Hps]. constructor; [|done].
      unfold dot_free in *. simpl. by rewrite Hc, Hp.
Qed.

Lemma str_join_cons a b l :
  str_join "." (a :: b :: l) = a +:+ String dot (str_join "." (b :: l)).
Proof. reflexivity. Qed.

Lemma str_split_join l :
  Forall dot_free l → l ≠ [] → str_split dot (str_join "." l) = l.
Proof.
  induction l as [|a l IH]; [done|]. intros Hall _.
  apply Forall_cons in Hall as [Ha Hl].
  destruct l as [|b l]; [done|].
  rewrite str_join_cons, str_split_app, Ha, IH by done. done.
Qed.

Lemma str_join_empty l : str_join "." l = "" ↔ l = [] ∨ l = [""].
Proof.
  split.
  - destruct l as [|a [|b l]]; [by left|simpl; intros ->; by right|].
    rewrite str_join_cons. by destruct a.
  - by intros [->| ->].
Qed.

Lemma lengths_split n i :
  1 ≤ i ≤ n →
  reverse (seq 1 n) =
  reverse (seq (S i) (n - i)) ++ i :: reverse (seq 1 (i - 1)).
Proof.
  intros Hi. replace n with ((i - 1) + (1 + (n - i))) at 1 by lia.
  rewrite !seq_app, !reverse_app. simpl.
  replace (S (i - 1)) with i by lia.
  replace (S (i - 1 + 1)) with (S i) by lia.
  rewrite <- app_assoc. done.
Qed.

Section LoadTheorems.
Variable getattr : obj_id → string → option obj_id.
Variable import_module : string → outcome obj_id.

(** The import of the first [j] parts says there is no such module. *)
Definition no_such_module (parts : list string) (j : nat) : Prop :=
  ∃ e, import_module (str_join "." (take j parts)) = Raise e ∧
       catches ModuleNotFoundError e = true.

Lemma load_loop_skip parts longer rest :
  (∀ j, j ∈ longer → no_such_module parts j) →
  load_loop getattr import_module parts (longer ++ rest) =
  load_loop getattr import_module parts rest.
Proof.
  induction longer as [|j longer IH]; intros Hall; [done|]. simpl.
  destruct (Hall j) as (e & -> & ->); [set_solver|].
  apply IH. intros j' Hj'. apply Hall. set_solver.
Qed.

Lemma load_by_qualname_at name i :
  1 ≤ i ≤ length (str_split dot name) →
  (∀ j, i < j ≤ length (str_split dot name) →
        no_such_module (str_split dot name) j) →
  load_by_qualname getattr import_module name =
  load_loop getattr import_module (str_split dot name)
    (i :: reverse (seq 1 (i - 1))).
Proof.
  intros Hi Hlonger. unfold load_by_qualname. cbv zeta.
  rewrite (lengths_split _ i Hi). apply load_loop_skip.
  intros j Hj. apply Hlonger.
  apply elem_of_reverse, elem_of_seq in Hj. lia.
Qed.

(** X13. [load_by_qualname] takes the longest prefix of the dotted name
    that imports.  When the first [i] parts import as [module] and every
    longer prefix has no such module, the parts left over are walked from
    [module] and what that walk gives is the answer: its object, or its
    exception ([NotFound], [ValueError]), with no shorter prefix tried
    after a failed walk.  With nothing left over, and also when all that
    is left over is one empty part (a name ending in a dot), the module
    itself is the answer. *)
Theorem load_by_qualname_longest_prefix name i module :
  let parts := str_split dot name in
  1 ≤ i ≤ length parts →
  (∀ j, i < j ≤ length parts → no_such_module parts j) →
  import_module (str_join "." (take i parts)) = Return module →
  load_by_qualname getattr import_module name =
  if decide (drop i parts = [] ∨ drop i parts = [""])
  then Loaded (Some module)
  else match walk_parts getattr (str_join "." (drop i parts)) module
               (drop i parts) with
       | Return o => Loaded (Some o)
       | Raise e => Failed e
       end.
Proof.
  intros parts Hi Hlonger Himport.
  rewrite (load_by_qualname_at name i Hi Hlonger). simpl.
  fold parts. rewrite Himport.
  destruct (decide (str_join "." (drop i parts) = "")) as [Hempty|Hne].
  - apply str_join_empty in Hempty. by rewrite decide_True.
  - rewrite decide_False by (intros Hd; by apply Hne, str_join_empty).
    unfold walk_qualname. rewrite str_split_join; [done| |].
    + apply Forall_drop, str_split_dot_free.
    + intros Hd. apply Hne, str_join_empty. by left.
Qed.

(** X14. An import that fails with anything but [ModuleNotFoundError]
    ends the search: when every longer prefix has no such module and the
    import of the first [i] parts raises [e], [load_by_qualname] raises
    [ErrorDuringImport] around [e] if [e] is an [Exception] (an
    [ImportError] that is no [ModuleNotFoundError] included), and lets [e]
    through otherwise; no shorter prefix is imported. *)
Theorem load_by_qualname_import_error name i e :
  let parts := str_split dot name in
  1 ≤ i ≤ length parts →
  (∀ j, i < j ≤ length parts → no_such_module parts j) →
  import_module (str_join "." (take i parts)) = Raise e →
  catches ModuleNotFoundError e = false →
  load_by_qualname getattr import_module name =
    (if catches Exception e then ImportFailed e else Failed e) ∧
  (exc_type e = ImportError →
   raised_class (load_by_qualname getattr import_module name)
   = Some ErrorDuringImport).
Proof.
  intros parts Hi Hlonger Himport Hcatch.
  rewrite (load_by_qualname_at name i Hi Hlonger). simpl.
  fold parts. rewrite Himport, Hcatch. split; [done|].
  intros Hty. unfold catches. by rewrite Hty.
Qed.

(** X15. When no prefix of the name is a module, [load_by_qualname]
    raises nothing and answers [None]. *)
Theorem load_by_qualname_unknown_gives_None name :
  (∀ j, 1 ≤ j ≤ length (str_split dot name) →
        no_such_module (str_split dot name) j) →
  load_by_qualname getattr import_module name = Loaded None.
Proof.
  intros Hall. unfold load_by_qualname. cbv zeta.
  rewrite <- (app_nil_r (reverse _)). rewrite load_loop_skip; [done|].
  intros j Hj. apply Hall. apply elem_of_reverse, elem_of_seq in Hj. lia.
Qed.

End LoadTheorems.

Section MemoTheorems.
Context {K V W : Type} `{Countable K}.
Variable f : K → Py W V.


End MemoTheorems.

(** * The further properties on the examples *)

(** A small module tree: [os] (40) has [path] (41), which has [join]
    (42); the module [broken] fails on import. *)
Definition example_getattr (o : obj_id) (part : string) : option obj_id :=
  if decide (o = 40 ∧ part = "path") then Some 41
  else if decide (o = 41 ∧ part = "join") then Some 42
  else None.

Definition example_import (name : string) : outcome obj_id :=
  if decide (name = "os") then Return 40
  else if decide (name = "os.path") then Return 41
  else if decide (name = "broken") then
    Raise {| exc_type := ValueError; exc_args := [VStr "bad module"] |}
  else Raise {| exc_type := ModuleNotFoundError;
                exc_args := [VStr ("No module named " +:+ name)] |}.

Lemma example_call_guard fn a kw : guard_stable (example_call fn a kw).
Proof.
  intros w. unfold example_call.
  repeat (destruct (decide _); [try by destruct a as [|[] [|? [|]]]|]).
  - destruct a as [|[] [|? [|]]]; try done.
    simpl. by destruct (store w !! l) as [[]|].
  - done.
Qed.

Lemma example_eval_guard e args : guard_stable (example_eval e args).
Proof. intros w. by rewrite example_eval_world. Qed.

(** X1 on [bounded(3)], which fails its second precondition. *)
Lemma wrapper_restores_guard_witness :
  fns_enforcing
    (@wrapper base_host bounded bounded_conditions [VInt 3] ∅ empty_world).2
  = ∅.
Proof.
  apply (@wrapper_restores_guard base_host bounded bounded_conditions
           [VInt 3] ∅ empty_world).
  - exact example_eval_guard.
  - exact (example_call_guard bounded).
Defined.

(** X2 on [half()], called without its argument. *)
Lemma unbindable_arguments_raise_TypeError_witness :
  @wrapper example_host half half_conditions [] ∅ empty_world =
    (Raise {| exc_type := TypeError;
              exc_args := [VStr "missing a required argument"] |},
     empty_world) ∧
  ∀ call ev,
    @wrapper (with_py_call (with_py_eval example_host ev) call)
      half half_conditions [] ∅ empty_world =
    @wrapper example_host half half_conditions [] ∅ empty_world.
Proof.
  apply (@unbindable_arguments_raise_TypeError example_host half
           half_conditions [] ∅ empty_world "missing a required argument").
  - simpl. set_solver.
  - reflexivity.
Defined.

(** X3 on [push_noop(l, 7)], which is declared to append and does not. *)
Lemma first_false_postcondition_fails_witness :
  @wrapper example_host push_noop push_conditions [VRef 0; VInt 7] ∅
    (list_world [VInt 1]) =
  (Raise {| exc_type := PostconditionFailed;
            exc_args := [VStr "Postcondition failed at stack.py:12"] |},
   push_world [VInt 1]).
Proof.
  rewrite (@first_false_postcondition_fails example_host push_noop
             push_conditions [VRef 0; VInt 7] ∅ (list_world [VInt 1])
             [("l", VRef 0); ("v", VInt 7)] 1 (push_world [VInt 1])
             (push_world [VInt 1]) VNone (push_world [VInt 1])
             [] (cond "len(l) == len(__old__['l']) + 1" "stack.py" 12) []
             (guarded push_noop (push_world [VInt 1])) (VBool false)
             (guarded push_noop (push_world [VInt 1]))).
  - vm_compute. reflexivity.
  - simpl. set_solver.
  - vm_compute. reflexivity.
  - vm_compute. reflexivity.
  - reflexivity.
  - reflexivity.
  - apply hold_nil.
  - vm_compute. reflexivity.
  - reflexivity.
  - simpl. set_solver.
Defined.


(** X6 on [half]: asked again, with other conditions, [_wrap_fn] answers
    with the wrapper it built the first time. *)
Lemma wrap_fn_is_cached_witness :
  let r := @_wrap_fn example_host half None example_scope in
  r.1 = Return 31 ∧
  @_wrap_fn example_host half (Some bounded_conditions) r.2 = (Return 31, r.2).
Proof.
  cbv zeta. split; [vm_compute; reflexivity|].
  apply (@wrap_fn_is_cached example_host half None (Some bounded_conditions)
           example_scope 31).
  vm_compute. reflexivity.
Defined.

(** X7 on [half] and its wrapper. *)
Lemma unwrap_after_wrap_witness :
  let r := @_wrap_fn example_host half None example_scope in
  r.1 = Return 31 ∧ _unwrap 1 31 r.2 = (Return half, r.2).
Proof.
  cbv zeta. split; [vm_compute; reflexivity|].
  apply (@unwrap_after_wrap example_host example_scope half None 31).
  - destruct example_inactive as (Hco & _). exact Hco.
  - right. reflexivity.
  - vm_compute. reflexivity.
Defined.

Lemma example_cache_kinds : cache_kinds example_scope.
Proof.
  intros f w Hf. change ((∅ : gmap obj_id obj_id) !! f = Some w) in Hf.
  by rewrite lookup_empty in Hf.
Qed.



(** X11 on [path.join] from [os]. *)
Lemma walk_qualname_composes_witness :
  walk_qualname example_getattr 40 "path" = Return 41 ∧
  match walk_qualname example_getattr 40 "path.join",
        walk_qualname example_getattr 41 "join" with
  | Return r, Return r' => r = r'
  | Raise e, Raise e' =>
      exc_type e = exc_type e' ∧ (exc_type e = NotFound → e = e')
  | _, _ => False
  end.
Proof.
  split; [reflexivity|].
  apply (walk_qualname_composes example_getattr 40 "path" "join" 41).
  reflexivity.
Defined.

(** X12 on [path.<locals>.f] from [os]. *)
Lemma walk_qualname_failure_witness :
  ∃ e, walk_qualname example_getattr 40 "path.<locals>.f" = Raise e ∧
       catches ValueError e = true ∧
       e = inline_error "path.<locals>.f" ∧ catches NotFound e = false.
Proof.
  destruct (walk_qualname_failure example_getattr 40 "path.<locals>.f"
              ["path"] "<locals>" ["f"] 41)
    as (e & Hrun & Hv & Hinline & _).
  - reflexivity.
  - reflexivity.
  - by left.
  - exists e. destruct (Hinline eq_refl) as [He Hn]. by split_and!.
Defined.

(** X13 on [os.path.join]: [os.path] is the longest prefix that imports. *)
Lemma load_by_qualname_longest_prefix_witness :
  load_by_qualname example_getattr example_import "os.path.join"
  = Loaded (Some 42).
Proof.
  rewrite (load_by_qualname_longest_prefix example_getattr example_import
             "os.path.join" 2 41).
  - reflexivity.
  - vm_compute. lia.
  - intros j Hj. assert (j = 3) as -> by (vm_compute in Hj; lia).
    eexists. split; reflexivity.
  - reflexivity.
Defined.

(** X14 on [broken.x]: the import of [broken] raises a ValueError. *)
Lemma load_by_qualname_import_error_witness :
  load_by_qualname example_getattr example_import "broken.x" =
  ImportFailed {| exc_type := ValueError; exc_args := [VStr "bad module"] |}.
Proof.
  destruct (load_by_qualname_import_error example_getattr example_import
              "broken.x" 1
              {| exc_type := ValueError; exc_args := [VStr "bad module"] |})
    as [Hrun _].
  - vm_compute. lia.
  - intros j Hj. assert (j = 2) as -> by (vm_compute in Hj; lia).
    eexists. split; reflexivity.
  - reflexivity.
  - reflexivity.
  - exact Hrun.
Defined.

(** X15 on a name none of whose prefixes is a module. *)
Lemma load_by_qualname_unknown_gives_None_witness :
  load_by_qualname example_getattr example_import "nothing.here" = Loaded None.
Proof.
  apply load_by_qualname_unknown_gives_None.
  intros j Hj.
  assert (j = 1 ∨ j = 2) as [-> | ->] by (vm_compute in Hj; lia).
  - eexists. split; reflexivity.
  - eexists. split; reflexivity.
Defined.
